(** * mpags-cipher: the cipher engine and its chunked dispatcher

    A shallow embedding of the two versions of [main] of mpags-cipher
    (the uniform-chunking driver of src/mpags-cipher.cpp and the driver
    with one branch per cipher type), of the futures they submit and
    collect, and of the three ciphers behind [cipherFactory]. *)

From Stdlib Require Import ZArith Ascii String List Lia Bool Arith Permutation.
Import ListNotations.
Local Open Scope Z_scope.

(** ** Text *)

(** [std::string] as the list of its characters. *)
Definition text := list ascii.

Definition lit (s : string) : text := list_ascii_of_string s.

(** [s.length()], a [size_t]. *)
Definition len (s : text) : Z := Z.of_nat (List.length s).

(** ** [size_t] arithmetic: unsigned, 64 bits, wrapping *)

Module SizeT.

Definition modulus : Z := 2 ^ 64.

Definition wrap (z : Z) : Z := z mod modulus.

Definition add (a b : Z) : Z := wrap (a + b).

Definition sub (a b : Z) : Z := wrap (a - b).

Definition mul (a b : Z) : Z := wrap (a * b).

(** Division by zero is undefined behaviour: no result. *)
Definition div (a b : Z) : option Z :=
  if b =? 0 then None else Some (a / b).

End SizeT.

(** ** Outcomes of a piece of the driver *)

Inductive exception := out_of_range.

Inductive run (A : Type) : Type :=
| Done (a : A)             (* ran to its end with a value *)
| Raise (e : exception)    (* an exception left the code *)
| Undefined.               (* undefined behaviour was reached *)
Arguments Done {A} a.
Arguments Raise {A} e.
Arguments Undefined {A}.

Definition bind {A B} (m : run A) (k : A -> run B) : run B :=
  match m with
  | Done a => k a
  | Raise e => Raise e
  | Undefined => Undefined
  end.

Notation "x <- m ;; k" := (bind m (fun x => k))
  (at level 61, m at next level, right associativity).

(** [s.substr(pos, n)]: throws [std::out_of_range] when [pos > s.size()],
    otherwise the characters from [pos], at most [n] of them. *)
Definition substr (s : text) (pos n : Z) : run text :=
  if len s <? pos then Raise out_of_range
  else Done (firstn (Z.to_nat n) (skipn (Z.to_nat pos) s)).

(** ** What the main thread does while it walks the text *)

Inductive cout_item :=
| CoutNum (n : Z)
| CoutText (s : text).

Inductive action :=
| Cout (item : cout_item)            (* std::cout << ... << std::endl *)
| Async (inputTextChunk : text).     (* futures.push_back(std::async(..., doCipher, chunk)) *)

(** The chunks handed to [std::async], in submission order. *)
Fixpoint submitted (acts : list action) : list text :=
  match acts with
  | [] => []
  | Async c :: rest => c :: submitted rest
  | Cout _ :: rest => submitted rest
  end.

(** ** Chunking loops *)

(** The body of the loop of src/mpags-cipher.cpp l.142-159, which the
    Caesar branch of the other driver repeats (l.154-171). [remaining]
    counts the iterations still to run, [threadNum - threadCount]. *)
Fixpoint uniformLoop (remaining : nat) (inputText : text)
    (chunkLength inputTextChunkStart endTextLen : Z)
    (futures : list action) : run (list action) :=
  match remaining with
  | O => Done futures
  | S remaining' =>
      inputTextChunk <- substr inputText inputTextChunkStart chunkLength ;;
      let inputTextChunkStart := SizeT.add inputTextChunkStart chunkLength in
      if 0 <? endTextLen then
        extra <- substr inputText inputTextChunkStart 1 ;;
        uniformLoop remaining' inputText chunkLength
          (SizeT.add inputTextChunkStart 1) (SizeT.sub endTextLen 1)
          (futures ++ [Async (inputTextChunk ++ extra)])
      else
        uniformLoop remaining' inputText chunkLength
          inputTextChunkStart endTextLen
          (futures ++ [Async inputTextChunk])
  end.

(** l.127-159 of src/mpags-cipher.cpp (l.141-171 of the other driver). *)
Definition uniformChunks (threadNum : Z) (inputText : text) : run (list action) :=
  match SizeT.div (len inputText) threadNum with
  | None => Undefined
  | Some chunkLength =>
      let endTextLen := SizeT.sub (len inputText) (SizeT.mul threadNum chunkLength) in
      uniformLoop (Z.to_nat threadNum) inputText chunkLength 0 endTextLen []
  end.

(** The Vigenere loop, l.183-201: the counter is printed, the chunk is
    cut inside a try block whose handler leaves the loop, then the chunk
    is printed and submitted. *)
Fixpoint vigenereLoop (remaining : nat) (inputText : text)
    (chunkLength threadCount : Z) (futures : list action) : run (list action) :=
  match remaining with
  | O => Done futures
  | S remaining' =>
      let futures := futures ++ [Cout (CoutNum threadCount)] in
      match substr inputText (SizeT.mul threadCount chunkLength) chunkLength with
      | Raise out_of_range => Done futures
      | Undefined => Undefined
      | Done inputTextChunk =>
          vigenereLoop remaining' inputText chunkLength
            (SizeT.add threadCount 1)
            (futures ++ [Cout (CoutText inputTextChunk); Async inputTextChunk])
      end
  end.

(** l.179-201. *)
Definition vigenereChunks (threadNum : Z) (cipherKey inputText : text)
  : run (list action) :=
  match SizeT.div (len inputText) (len cipherKey) with
  | None => Undefined
  | Some perKey =>
      match SizeT.div perKey threadNum with
      | None => Undefined
      | Some perThread =>
          let chunkLength := SizeT.mul (SizeT.add perThread 1) (len cipherKey) in
          vigenereLoop (Z.to_nat threadNum) inputText chunkLength 0 []
      end
  end.

(** ** Cipher modes and types (CipherMode.hpp, CipherType.hpp) *)

Inductive CipherMode := Encrypt | Decrypt.
Inductive CipherType := Caesar | Playfair | Vigenere.

(** ** Characters *)

Definition code (c : ascii) : Z := Z.of_nat (nat_of_ascii c).
Definition chr (z : Z) : ascii := ascii_of_nat (Z.to_nat z).

Definition isUpper (c : ascii) : bool := (65 <=? code c) && (code c <=? 90).
Definition isLower (c : ascii) : bool := (97 <=? code c) && (code c <=? 122).
Definition isAlpha (c : ascii) : bool := isUpper c || isLower c.
Definition isDigit (c : ascii) : bool := (48 <=? code c) && (code c <=? 57).
Definition toUpper (c : ascii) : ascii :=
  if isLower c then chr (code c - 32) else c.

Definition alphabet : text := lit "ABCDEFGHIJKLMNOPQRSTUVWXYZ".

(** ** The shift cipher *)

(** Modelled from the spec: the per-letter arithmetic of CaesarCipher
    (CaesarCipher.cpp is not among the sources), section 4.1: a letter
    [c] goes to [(c - 'A' + s) mod 26 + 'A'] when encrypting and to
    [(c - 'A' - s) mod 26 + 'A'] when decrypting; any other character
    is passed through. *)
Definition shiftLetter (mode : CipherMode) (s : Z) (c : ascii) : ascii :=
  if isUpper c then
    match mode with
    | Encrypt => chr ((code c - 65 + s) mod 26 + 65)
    | Decrypt => chr ((code c - 65 - s) mod 26 + 65)
    end
  else c.

(** Modelled from the spec: CaesarCipher::applyCipher, section 4.1. *)
Definition caesarApply (key : Z) (inputText : text) (mode : CipherMode) : text :=
  map (shiftLetter mode key) inputText.

(** The value of a string of decimal digits. *)
Definition parseDecimal (digits : text) : Z :=
  fold_left (fun acc c => 10 * acc + (code c - 48)) digits 0.

(** Modelled from the spec: the key check of CaesarCipher, section 4.1:
    the raw key must represent a non-negative base-10 integer, which is
    reduced modulo 26; no size is too large. *)
Definition caesarKey (rawKey : text) : option Z :=
  match rawKey with
  | [] => None
  | _ => if forallb isDigit rawKey then Some (parseDecimal rawKey mod 26) else None
  end.

(** ** The polyalphabetic cipher *)

(** Modelled from the spec: the shift of position [i], section 4.3,
    [keyword[i mod keyLen] - 'A']. *)
Definition keyShift (key : text) (i : nat) : Z :=
  code (nth (i mod List.length key) key "A"%char) - 65.

(** Modelled from the spec: VigenereCipher::applyCipher, section 4.3;
    [i] is the position of the first character of [t] in the stream
    that this invocation processes. *)
Fixpoint vigenereFrom (key : text) (mode : CipherMode) (i : nat) (t : text) : text :=
  match t with
  | [] => []
  | c :: t' => shiftLetter mode (keyShift key i) c :: vigenereFrom key mode (S i) t'
  end.

(** Modelled from the spec: VigenereCipher::applyCipher, section 4.3:
    every invocation starts its key cycle at index 0. *)
Definition vigenereApply (key : text) (inputText : text) (mode : CipherMode) : text :=
  vigenereFrom key mode 0 inputText.

(** Modelled from the spec: the key check shared by the two keyword
    ciphers, sections 4.2 and 4.3: letters only and not empty. The
    keyword is used in upper case. *)
Definition keywordKey (rawKey : text) : option text :=
  match rawKey with
  | [] => None
  | _ => if forallb isAlpha rawKey then Some (map toUpper rawKey) else None
  end.

(** ** The digraph cipher *)

(** Modelled from the spec: the merging of J into I, section 4.2. *)
Definition mergeJ (c : ascii) : ascii :=
  if Ascii.eqb c "J" then "I"%char else c.

(** Keeps the first occurrence of every character. *)
Fixpoint dedup (l : text) : text :=
  match l with
  | [] => []
  | c :: r => c :: filter (fun d => negb (Ascii.eqb d c)) (dedup r)
  end.

(** Modelled from the spec: the 5x5 key square of PlayfairCipher
    (PlayfairCipher.cpp is not among the sources), section 4.2, row by
    row: the distinct letters of the keyword, then the rest of the
    alphabet in order, J merged into I. *)
Definition playfairSquare (keyword : text) : text :=
  dedup (map mergeJ (keyword ++ alphabet)).

Fixpoint indexOf (c : ascii) (l : text) : option nat :=
  match l with
  | [] => None
  | d :: r => if Ascii.eqb c d then Some O else option_map S (indexOf c r)
  end.

(** Modelled from the spec: section 4.2, one place to the right or
    below when encrypting, to the left or above when decrypting,
    wrapping. *)
Definition shift5 (mode : CipherMode) (k : nat) : nat :=
  match mode with
  | Encrypt => ((k + 1) mod 5)%nat
  | Decrypt => ((k + 4) mod 5)%nat
  end.

(** Modelled from the spec: section 4.2, where a pair at cells [i] and
    [j] of the square goes (cell [5 * row + column]): same row, same
    column, rectangle. *)
Definition digraphCells (mode : CipherMode) (i j : nat) : nat * nat :=
  let ra := (i / 5)%nat in let ca := (i mod 5)%nat in
  let rb := (j / 5)%nat in let cb := (j mod 5)%nat in
  if (ra =? rb)%nat then
    ((5 * ra + shift5 mode ca)%nat, (5 * rb + shift5 mode cb)%nat)
  else if (ca =? cb)%nat then
    ((5 * shift5 mode ra + ca)%nat, (5 * shift5 mode rb + cb)%nat)
  else ((5 * ra + cb)%nat, (5 * rb + ca)%nat).

(** Modelled from the spec: the substitution of one digraph, section
    4.2 (same row, same column, rectangle). A pair with a character
    that is not in the square is passed through (section 7). *)
Definition digraph (mode : CipherMode) (square : text) (a b : ascii) : ascii * ascii :=
  match indexOf a square, indexOf b square with
  | Some i, Some j =>
      let (i', j') := digraphCells mode i j in
      (nth i' square "A"%char, nth j' square "A"%char)
  | _, _ => (a, b)
  end.

(** Modelled from the spec: section 4.2, the text goes through the
    square pair by pair. *)
Fixpoint digraphs (mode : CipherMode) (square : text) (t : text) : text :=
  match t with
  | a :: b :: t' =>
      let (x, y) := digraph mode square a b in x :: y :: digraphs mode square t'
  | _ => t
  end.

(** Modelled from the spec: the filler that breaks a doubled letter.
    Section 4.2 names X, and for a doubled X the letter Z as the usual
    choice; the second scenario of section 8, which is the unit test
    of the repository, has Q between the two X of COMPLEXXENOPHONE, and
    the model follows the test. *)
Definition filler (doubled : ascii) : ascii :=
  if Ascii.eqb doubled "X" then "Q"%char else "X"%char.

(** The filler with Z for a doubled X, as the prose of section 4.2 has it. *)
Definition fillerAsWorded (doubled : ascii) : ascii :=
  if Ascii.eqb doubled "X" then "Z"%char else "X"%char.

(** Modelled from the spec: section 4.2, a pair of identical letters
    gets the filler between them and pairing resumes at the second. *)
Fixpoint breakDoubles (fill : ascii -> ascii) (t : text) : text :=
  match t with
  | a :: ((b :: t') as rest) =>
      if Ascii.eqb a b then a :: fill a :: breakDoubles fill rest
      else a :: b :: breakDoubles fill t'
  | _ => t
  end.

(** Modelled from the spec: section 4.2, the letter that completes the
    last pair is Z by convention; after a final Z it is X, as the last
    pair must not be a doubled one either. *)
Definition padFiller (final : ascii) : ascii :=
  if Ascii.eqb final "Z" then "X"%char else "Z"%char.

(** Modelled from the spec: section 4.2, an odd length gets a final
    filler letter. *)
Definition padOdd (t : text) : text :=
  if Nat.odd (List.length t) then t ++ [padFiller (last t "A"%char)] else t.

(** Modelled from the spec: section 4.2, the text the digraph cipher
    really works on, in either mode. *)
Definition canonicalWith (fill : ascii -> ascii) (t : text) : text :=
  padOdd (breakDoubles fill (map mergeJ t)).

Definition canonical : text -> text := canonicalWith filler.

(** Modelled from the spec: PlayfairCipher::applyCipher, section 4.2. *)
Definition playfairApplyWith (fill : ascii -> ascii) (square : text)
    (inputText : text) (mode : CipherMode) : text :=
  digraphs mode square (canonicalWith fill inputText).

Definition playfairApply : text -> text -> CipherMode -> text :=
  playfairApplyWith filler.

(** ** Cipher instances and the factory *)

(** Modelled from the spec: the cipher classes behind Cipher.hpp
    (not among the sources) as a tagged union, section 9; a constructed
    cipher owns its validated key. *)
Inductive Cipher :=
| CaesarCipher (key : Z)
| PlayfairCipher (square : text)
| VigenereCipher (key : text).

(** Modelled from the spec: Cipher::applyCipher (Cipher.hpp is not
    among the sources), dispatching on the variant. *)
Definition applyCipher (cipher : Cipher) (inputText : text) (mode : CipherMode) : text :=
  match cipher with
  | CaesarCipher key => caesarApply key inputText mode
  | PlayfairCipher square => playfairApply square inputText mode
  | VigenereCipher key => vigenereApply key inputText mode
  end.

(** Modelled from the spec: what a call of the factory ends in,
    section 4.4: a cipher, or the exception [InvalidKey] of
    Exceptions.hpp with its message. *)
Inductive constructed :=
| Returns (cipher : Cipher)
| ThrowsInvalidKey (msg : string).

(** Modelled from the spec: cipherFactory (CipherFactory.cpp is not
    among the sources), section 4.4. *)
Definition cipherFactory (type : CipherType) (key : text) : constructed :=
  match type with
  | Caesar =>
      match caesarKey key with
      | Some k => Returns (CaesarCipher k)
      | None => ThrowsInvalidKey "Caesar cipher key is not a non-negative integer"
      end
  | Playfair =>
      match keywordKey key with
      | Some k => Returns (PlayfairCipher (playfairSquare k))
      | None => ThrowsInvalidKey "Playfair cipher key is empty or has a character that is not a letter"
      end
  | Vigenere =>
      match keywordKey key with
      | Some k => Returns (VigenereCipher k)
      | None => ThrowsInvalidKey "Vigenere cipher key is empty or has a character that is not a letter"
      end
  end.

(** ** The two drivers *)

(** The settings that [processCommandLine] fills (initialised at l.22-23). *)
Record ProgramSettings := {
  helpRequested : bool;
  versionRequested : bool;
  inputFile : string;
  outputFile : string;
  cipherKey : text;
  cipherMode : CipherMode;
  cipherType : CipherType
}.

(** [Older] is [main] of src/mpags-cipher.cpp, which cuts the text the
    same way for every cipher; [Newer] is the [main] with one branch per
    cipher type. *)
Inductive driver := Older | Newer.

(** How [main] gets the text through the cipher: one call of
    [applyCipher] on the main thread, or the actions of a chunking loop
    followed by the collection of the futures. *)
Inductive plan :=
| Synchronous (inputText : text)
| Threaded (acts : list action).

Definition dispatch (d : driver) (threadNum : Z) (settings : ProgramSettings)
    (inputText : text) : run plan :=
  match d with
  | Older =>
      acts <- uniformChunks threadNum inputText ;; Done (Threaded acts)
  | Newer =>
      match cipherType settings with
      | Playfair => Done (Synchronous inputText)
      | Caesar =>
          acts <- uniformChunks threadNum inputText ;; Done (Threaded acts)
      | Vigenere =>
          acts <- vigenereChunks threadNum (cipherKey settings) inputText ;;
          Done (Threaded acts)
      end
  end.

(** [const size_t threadNum{12}]. *)
Definition threadNum : Z := 12.

(** ** Futures, the main thread and the worker threads *)

(** The shared state behind a [std::future] obtained from
    [std::async(std::launch::async, doCipher, chunk)]: the call is still
    running on its thread, or its result is stored. *)
Inductive future :=
| Running (input : text)
| Ready (result : text).

Inductive future_status := status_ready | status_timeout.

Inductive thread := MainThread | Worker (i : nat).

Inductive event :=
| Applied (t : thread) (input : text)           (* one call of applyCipher *)
| Printed (item : cout_item)                    (* a line of the Vigenere loop *)
| WaitedFor (i : nat) (status : future_status)  (* futures[i].wait_for(...) *)
| PrintedWaiting                                (* "[main] Waiting..." *)
| PrintedThreadReady (i : nat)                  (* "[main] Thread i ready!" *)
| Got (i : nat)                                 (* futures[i].get() returned *)
| Wrote (out : text)                            (* the text written to file or stdout *)
| OpenFailed.                                   (* the output file could not be opened *)

(** Where the main thread stands. *)
Inductive pc :=
| Calling (inputText : text)   (* about to call applyCipher itself *)
| Chunking (todo : list action)
| PollTest                     (* at [while (!allFuturesReady)] *)
| PollBody (i : nat)           (* in the loop over the futures, at index i *)
| Collecting (i : nat)         (* in the loop of get(), at index i *)
| Writing
| Returned (exitCode : Z).

Record state := St {
  at_ : pc;
  futures : list future;
  allFuturesReady : Z;      (* int in the older driver, bool in the newer *)
  outputText : text;
  trace : list event
}.

Fixpoint update {A} (i : nat) (v : A) (l : list A) : list A :=
  match l, i with
  | [], _ => []
  | _ :: r, O => v :: r
  | x :: r, S i' => x :: update i' v r
  end.

(** The flag after a [wait_for] that timed out: [allFuturesReady *= 0]
    in the older driver, [allFuturesReady = false] in the newer. *)
Definition afterTimeout (d : driver) (flag : Z) : Z :=
  match d with Older => flag * 0 | Newer => 0 end.

(** The flag after a [wait_for] that found the result:
    [allFuturesReady *= 1] in the older driver, untouched in the newer. *)
Definition afterReady (d : driver) (flag : Z) : Z :=
  match d with Older => flag * 1 | Newer => flag end.

Definition timeoutEvents (d : driver) (i : nat) : list event :=
  match d with
  | Older => [WaitedFor i status_timeout; PrintedWaiting]
  | Newer => [WaitedFor i status_timeout]
  end.

Definition readyEvents (d : driver) (i : nat) : list event :=
  match d with
  | Older => [WaitedFor i status_ready; PrintedThreadReady i]
  | Newer => [WaitedFor i status_ready]
  end.

(** One step of the program: either the worker thread of a future ends
    its call and stores the result, or the main thread moves on. The
    main thread is stuck in [get()] while the future is [Running]. *)
Inductive step (d : driver) (doCipher : text -> text) : state -> state -> Prop :=
| step_worker : forall p fs flag out tr i input,
    nth_error fs i = Some (Running input) ->
    step d doCipher (St p fs flag out tr)
      (St p (update i (Ready (doCipher input)) fs) flag out
          (tr ++ [Applied (Worker i) input]))
| step_call : forall inputText fs flag out tr,
    step d doCipher (St (Calling inputText) fs flag out tr)
      (St Writing fs flag (doCipher inputText)
          (tr ++ [Applied MainThread inputText]))
| step_cout : forall item todo fs flag out tr,
    step d doCipher (St (Chunking (Cout item :: todo)) fs flag out tr)
      (St (Chunking todo) fs flag out (tr ++ [Printed item]))
| step_async : forall chunk todo fs flag out tr,
    step d doCipher (St (Chunking (Async chunk :: todo)) fs flag out tr)
      (St (Chunking todo) (fs ++ [Running chunk]) flag out tr)
| step_chunked : forall fs flag out tr,
    step d doCipher (St (Chunking []) fs flag out tr)
      (St PollTest fs 1 out tr)
| step_poll_enter : forall fs out tr,
    step d doCipher (St PollTest fs 0 out tr) (St (PollBody 0) fs 1 out tr)
| step_poll_leave : forall fs flag out tr,
    flag <> 0 ->
    step d doCipher (St PollTest fs flag out tr) (St (Collecting 0) fs flag out tr)
| step_wait_timeout : forall i input fs flag out tr,
    nth_error fs i = Some (Running input) ->
    step d doCipher (St (PollBody i) fs flag out tr)
      (St (PollBody (S i)) fs (afterTimeout d flag) out (tr ++ timeoutEvents d i))
| step_wait_ready : forall i result fs flag out tr,
    nth_error fs i = Some (Ready result) ->
    step d doCipher (St (PollBody i) fs flag out tr)
      (St (PollBody (S i)) fs (afterReady d flag) out (tr ++ readyEvents d i))
| step_poll_again : forall i fs flag out tr,
    (List.length fs <= i)%nat ->
    step d doCipher (St (PollBody i) fs flag out tr) (St PollTest fs flag out tr)
| step_get : forall i result fs flag out tr,
    nth_error fs i = Some (Ready result) ->
    step d doCipher (St (Collecting i) fs flag out tr)
      (St (Collecting (S i)) fs flag (out ++ result) (tr ++ [Got i]))
| step_collected : forall i fs flag out tr,
    (List.length fs <= i)%nat ->
    step d doCipher (St (Collecting i) fs flag out tr) (St Writing fs flag out tr)
| step_write : forall fs flag out tr,
    step d doCipher (St Writing fs flag out tr)
      (St (Returned 0) fs flag out (tr ++ [Wrote out]))
| step_open_failed : forall fs flag out tr,
    step d doCipher (St Writing fs flag out tr)
      (St (Returned 1) fs flag out (tr ++ [OpenFailed])).

Inductive steps (d : driver) (doCipher : text -> text) : state -> state -> Prop :=
| steps_refl : forall s, steps d doCipher s s
| steps_more : forall s1 s2 s3,
    steps d doCipher s1 s2 -> step d doCipher s2 s3 -> steps d doCipher s1 s3.

(** The state in which the cipher work of a plan starts: no future yet,
    [outputText] empty. *)
Definition start (p : plan) : state :=
  match p with
  | Synchronous inputText => St (Calling inputText) [] 1 [] []
  | Threaded acts => St (Chunking acts) [] 1 [] []
  end.

(** [doCipher], the lambda of l.122-125 (l.133-135 in the newer driver). *)
Definition doCipher (cipher : Cipher) (settings : ProgramSettings) (input : text) : text :=
  applyCipher cipher input (cipherMode settings).

(** The reassembly loop as a function: the outputs of the chunks,
    appended in submission order. *)
Definition reassemble (f : text -> text) (chunks : list text) : text :=
  fold_left (fun out chunk => out ++ f chunk) chunks [].

(** ** Helpers for the statements *)

(** Where each chunk starts in the text: the lengths before it, summed. *)
Fixpoint offsets (from : nat) (chunks : list text) : list nat :=
  match chunks with
  | [] => []
  | c :: rest => from :: offsets (from + List.length c) rest
  end.

(** What a driver writes when nothing goes wrong, as a function of its plan. *)
Definition planOutput (f : text -> text) (p : plan) : text :=
  match p with
  | Synchronous inputText => f inputText
  | Threaded acts => reassemble f (submitted acts)
  end.

(** A future agrees with the chunk it was created for. *)
Definition agrees (f : text -> text) (fu : future) (chunk : text) : Prop :=
  match fu with
  | Running input => input = chunk
  | Ready result => result = f chunk
  end.

Definition isReady (fu : future) : bool :=
  match fu with Ready _ => true | Running _ => false end.

(** Projections of a trace: the indices of the [get()] calls that
    returned, the texts written, the events of the polling loop, the
    threads that called [applyCipher]. *)
Definition gots (tr : list event) : list nat :=
  flat_map (fun e => match e with Got i => [i] | _ => [] end) tr.

Definition wrotes (tr : list event) : list text :=
  flat_map (fun e => match e with Wrote out => [out] | _ => [] end) tr.

Definition isPolling (e : event) : bool :=
  match e with
  | WaitedFor _ _ | PrintedWaiting | PrintedThreadReady _ => true
  | _ => false
  end.

Definition polls (tr : list event) : list event := filter isPolling tr.

Definition appliers (tr : list event) : list thread :=
  flat_map (fun e => match e with Applied t _ => [t] | _ => [] end) tr.

(** The number of steps a state is away from [Returned], at most. *)
Fixpoint todoWeight (todo : list action) : nat :=
  match todo with
  | [] => O
  | Cout _ :: rest => S (todoWeight rest)
  | Async _ :: rest => S (S (S (todoWeight rest)))
  end.

Definition running (fs : list future) : nat :=
  List.length (filter (fun fu => negb (isReady fu)) fs).

Definition measure (s : state) : nat :=
  (running (futures s) +
   match at_ s with
   | Calling _ => 2
   | Chunking todo => todoWeight todo + List.length (futures s) + 5
   | PollTest => List.length (futures s) + 4
   | PollBody _ => 0
   | Collecting i => (List.length (futures s) - i) + 2
   | Writing => 1
   | Returned _ => 0
   end)%nat.

(** The main thread has collected the first [i] futures. *)
Definition collected (f : text -> text) (chunks : list text) (i : nat) (s : state) : Prop :=
  Forall2 (agrees f) (futures s) chunks
  /\ (i <= List.length chunks)%nat
  /\ forallb isReady (firstn i (futures s)) = true
  /\ outputText s = concat (map f (firstn i chunks))
  /\ gots (trace s) = seq 0 i.

(** What holds of every state of a run that works through futures on
    the chunks [chunks]. *)
Definition Inv (f : text -> text) (chunks : list text) (s : state) : Prop :=
  polls (trace s) = []
  /\ ~ In MainThread (appliers (trace s))
  /\ List.length (appliers (trace s)) = List.length (filter isReady (futures s))
  /\ match at_ s with
     | Calling _ | PollBody _ => False
     | Chunking todo =>
         exists done,
           chunks = done ++ submitted todo
           /\ Forall2 (agrees f) (futures s) done
           /\ outputText s = [] /\ gots (trace s) = [] /\ wrotes (trace s) = []
     | PollTest =>
         collected f chunks 0 s /\ allFuturesReady s = 1 /\ wrotes (trace s) = []
     | Collecting i =>
         collected f chunks i s /\ wrotes (trace s) = []
     | Writing =>
         collected f chunks (List.length chunks) s /\ wrotes (trace s) = []
     | Returned exitCode =>
         collected f chunks (List.length chunks) s
         /\ wrotes (trace s) = if exitCode =? 0 then [outputText s] else []
     end.

(** The letters of the key square: the alphabet without J. *)
Definition letters25 : text := lit "ABCDEFGHIKLMNOPQRSTUVWXYZ".

Definition inSquare (c : ascii) : bool := existsb (Ascii.eqb c) letters25.

(** A text made of whole digraphs, none of them a doubled letter. *)
Fixpoint paired (t : text) : bool :=
  match t with
  | [] => true
  | [_] => false
  | a :: b :: t' => negb (Ascii.eqb a b) && paired t'
  end.

(** The check that, on the 25 cells, the substitution of a pair of
    different cells stays among the cells, gives different cells, and is
    undone by the substitution of the other mode. *)
Definition cellsOk (mode back : CipherMode) : bool :=
  forallb (fun i =>
    forallb (fun j =>
      if (i =? j)%nat then true
      else
        let (i', j') := digraphCells mode i j in
        (i' <? 25)%nat && (j' <? 25)%nat && negb (i' =? j')%nat
        && (let (i'', j'') := digraphCells back i' j' in
            (i'' =? i)%nat && (j'' =? j)%nat))
      (seq 0 25))
    (seq 0 25).

(** A text whose whole digraphs are not doubled letters; a last single
    letter is allowed. *)
Fixpoint pairedUpTo (t : text) : bool :=
  match t with
  | a :: b :: t' => negb (Ascii.eqb a b) && pairedUpTo t'
  | _ => true
  end.

(** A cipher instance as the factory builds them. *)
Definition validCipher (cipher : Cipher) : Prop :=
  match cipher with
  | CaesarCipher key => 0 <= key <= 25
  | PlayfairCipher square =>
      exists keyword, keyword <> [] /\ forallb isUpper keyword = true
                      /\ square = playfairSquare keyword
  | VigenereCipher key => key <> [] /\ forallb isUpper key = true
  end.

(** The raw keys that section 4 calls malformed. *)
Definition malformed (type : CipherType) (rawKey : text) : Prop :=
  match type with
  | Caesar => rawKey = [] \/ exists c, In c rawKey /\ isDigit c = false
  | Playfair | Vigenere => rawKey = [] \/ exists c, In c rawKey /\ isAlpha c = false
  end.

(** Settings with nothing but the cipher chosen. *)
Definition settingsFor (type : CipherType) (key : string) (mode : CipherMode)
  : ProgramSettings :=
  {| helpRequested := false; versionRequested := false;
     inputFile := ""; outputFile := "";
     cipherKey := lit key; cipherMode := mode; cipherType := type |}.

(** A run of two chunks whose second worker ends first. *)
Definition sampleCipher (t : text) : text := caesarApply 1 t Encrypt.

Definition sampleActs : list action := [Async (lit "AB"); Async (lit "CD")].

Definition sampleEnd : state :=
  St (Returned 0) [Ready (lit "BC"); Ready (lit "DE")] 1 (lit "BCDE")
     [Applied (Worker 1) (lit "CD"); Applied (Worker 0) (lit "AB");
      Got 0%nat; Got 1%nat; Wrote (lit "BCDE")].

(** The factory throws [InvalidKey], with some message. *)
Definition throwsInvalidKey (type : CipherType) (rawKey : text) : Prop :=
  exists msg, cipherFactory type rawKey = ThrowsInvalidKey msg.

(** The square of the key hello. *)
Definition helloSquare : text := playfairSquare (lit "HELLO").

(** ** The rest of [main]: command line, cipher construction, input, output *)

(** What [processCommandLine] (ProcessCommandLine.hpp is not among the
    sources) does on the arguments of this run: it throws one of the two
    exceptions that [main] catches, or it fills the settings. *)
Inductive parsedCommandLine :=
| ThrowsMissingArgument (what : string)
| ThrowsUnknownArgument (what : string)
| Parsed (settings : ProgramSettings).

(** What a call of [cipherFactory] ends in, as [main] tells the cases
    apart (l.76-91): a cipher object, seen through its [applyCipher], a
    null pointer, or the exception [InvalidKey]. *)
Inductive factoryOutcome :=
| Constructs (apply : text -> CipherMode -> text)
| ReturnsNull
| ThrowsKey (what : string).

(** Everything outside [main] that a run of [main] depends on. *)
Record environment := {
  processCommandLine : parsedCommandLine;
  factory : CipherType -> text -> factoryOutcome;
  transformChar : ascii -> text;
  stdin : text;
  readFile : string -> option text;   (* None: the ifstream is not good *)
  canWrite : string -> bool           (* the ofstream is good *)
}.

(** What a run leaves on the standard streams and in the output file. *)
Inductive io :=
| CerrMissingArgument (what : string)   (* [error] Missing argument: ... *)
| CerrUnknownArgument (what : string)   (* [error] Unknown argument: ... *)
| CerrInvalidKey (what : string)        (* [error] Invalid key: ... *)
| CerrNoCipher                          (* [error] problem constructing requested cipher *)
| CerrIstream (file : string)           (* [error] failed to create istream on file ... *)
| CerrOstream (file : string)           (* [error] failed to create ostream on file ... *)
| StdoutUsage                           (* the help message *)
| Stdout (item : cout_item)             (* std::cout << item << std::endl *)
| FileLine (file : string) (out : text). (* outputStream << out << std::endl *)

(** The characters that formatted extraction of a [char] skips. *)
Definition isSpace (c : ascii) : bool :=
  ((9 <=? code c) && (code c <=? 13)) || (code c =? 32).

(** The two reading loops, l.108-110 and l.115-117: [stream >> inputChar]
    skips white space, and what [transformChar] gives for each other
    character is appended. *)
Definition readChars (env : environment) (content : text) : text :=
  concat (map (transformChar env) (filter (fun c => negb (isSpace c)) content)).

(** Where the first part of [main] ends: in a [return], or with the
    settings, the cipher and the input text in hand. *)
Inductive preluded :=
| Exits (code : Z) (ios : list io)
| Proceeds (settings : ProgramSettings) (apply : text -> CipherMode -> text)
           (inputText : text).

(** l.28-118 of either [main]. *)
Definition prelude (env : environment) : preluded :=
  match processCommandLine env with
  | ThrowsMissingArgument what => Exits 1 [CerrMissingArgument what]
  | ThrowsUnknownArgument what => Exits 1 [CerrUnknownArgument what]
  | Parsed settings =>
      if helpRequested settings then Exits 0 [StdoutUsage]
      else if versionRequested settings then Exits 0 [Stdout (CoutText (lit "0.5.0"))]
      else
        match factory env (cipherType settings) (cipherKey settings) with
        | ThrowsKey what => Exits 1 [CerrInvalidKey what]
        | ReturnsNull => Exits 1 [CerrNoCipher]
        | Constructs apply =>
            match inputFile settings with
            | EmptyString => Proceeds settings apply (readChars env (stdin env))
            | file =>
                match readFile env file with
                | None => Exits 1 [CerrIstream file]
                | Some content => Proceeds settings apply (readChars env content)
                end
            end
        end
  end.

(** The last part of [main], l.184-204 (l.223-243 of the other [main]):
    the exit code and what is written. *)
Definition epilogue (env : environment) (settings : ProgramSettings)
    (outputText : text) : Z * list io :=
  match outputFile settings with
  | EmptyString => (0, [Stdout (CoutText outputText)])
  | file =>
      if canWrite env file then (0, [FileLine file outputText])
      else (1, [CerrOstream file])
  end.

(** The lines of the chunking loop, among its actions and in a trace. *)
Definition couts (acts : list action) : list cout_item :=
  flat_map (fun a => match a with Cout item => [item] | Async _ => [] end) acts.

Definition printed (tr : list event) : list cout_item :=
  flat_map (fun e => match e with Printed item => [item] | _ => [] end) tr.

Definition planCouts (p : plan) : list cout_item :=
  match p with
  | Synchronous _ => []
  | Threaded acts => couts acts
  end.

(** A whole run of [main]: its exit code and what it leaves behind. The
    middle part is a run of the futures up to the point where the
    output text is assembled; of its trace the lines of the chunking
    loop go to std::cout (the messages of the polling loop would too,
    but no trace has one). *)
Inductive mainRun (d : driver) (env : environment) : Z -> list io -> Prop :=
| main_exits : forall code ios,
    prelude env = Exits code ios ->
    mainRun d env code ios
| main_completes : forall settings apply inputText p s,
    prelude env = Proceeds settings apply inputText ->
    dispatch d threadNum settings inputText = Done p ->
    steps d (fun input => apply input (cipherMode settings)) (start p) s ->
    at_ s = Writing ->
    mainRun d env
      (fst (epilogue env settings (outputText s)))
      (map Stdout (printed (trace s)) ++ snd (epilogue env settings (outputText s))).

(** Whether a run ends in failure, read off the environment alone. *)
Definition failure (env : environment) : bool :=
  match processCommandLine env with
  | ThrowsMissingArgument _ | ThrowsUnknownArgument _ => true
  | Parsed settings =>
      negb (helpRequested settings) && negb (versionRequested settings)
      && match factory env (cipherType settings) (cipherKey settings) with
         | Constructs _ =>
             match inputFile settings with
             | EmptyString => false
             | file => match readFile env file with None => true | Some _ => false end
             end
             || match outputFile settings with
                | EmptyString => false
                | file => negb (canWrite env file)
                end
         | _ => true
         end
  end.

(** Whether a run gets to l.179 of the driver with one branch per
    cipher type with an empty key in hand: the length of the text is
    divided by the length of the key there, before anything else. *)
Definition dividesByZero (d : driver) (env : environment) : bool :=
  match d, prelude env with
  | Newer, Proceeds settings _ _ =>
      match cipherType settings with
      | Vigenere => len (cipherKey settings) =? 0
      | _ => false
      end
  | _, _ => false
  end.

(** The calls of [applyCipher] in a trace: who called, on what. *)
Definition applied (tr : list event) : list (thread * text) :=
  flat_map (fun e => match e with Applied t input => [(t, input)] | _ => [] end) tr.

(** The calls that the futures holding a result stand for: worker [k]
    on chunk [k]. *)
Fixpoint readyFrom (k : nat) (fs : list future) (chunks : list text)
  : list (thread * text) :=
  match fs, chunks with
  | fu :: fs', c :: chunks' =>
      (if isReady fu then [(Worker k, c)] else []) ++ readyFrom (S k) fs' chunks'
  | _, _ => []
  end.

(** Worker [k] on chunk [k], for every chunk. *)
Fixpoint ownWorkers (k : nat) (chunks : list text) : list (thread * text) :=
  match chunks with
  | [] => []
  | c :: chunks' => (Worker k, c) :: ownWorkers (S k) chunks'
  end.

(** The actions of the Vigenere loop for the chunks [from], ...,
    [from + count - 1] of length [chunkLength]. *)
Fixpoint vigenereRounds (inputText : text) (chunkLength : nat) (from count : nat)
  : list action :=
  match count with
  | O => []
  | S count' =>
      let chunk := firstn chunkLength (skipn (from * chunkLength) inputText) in
      Cout (CoutNum (Z.of_nat from)) :: Cout (CoutText chunk) :: Async chunk
        :: vigenereRounds inputText chunkLength (S from) count'
  end.

(** An environment for the examples: no arguments but the cipher and
    its key, the ciphers of this file, letters passed through in upper
    case and every other character dropped, no readable file. *)
Definition sampleEnv (type : CipherType) (key : string) (input : string) : environment :=
  {| processCommandLine := Parsed (settingsFor type key Encrypt);
     factory := fun t k =>
       match cipherFactory t k with
       | Returns cipher => Constructs (applyCipher cipher)
       | ThrowsInvalidKey msg => ThrowsKey msg
       end;
     transformChar := fun c => if isAlpha c then [toUpper c] else [];
     stdin := lit input;
     readFile := fun _ => None;
     canWrite := fun _ => true |}.

(** * Properties *)

(** ** Lists and machine arithmetic *)

Lemma wrap_small (z : Z) : 0 <= z < SizeT.modulus -> SizeT.wrap z = z.
Proof. intros H. unfold SizeT.wrap. now apply Z.mod_small. Qed.

Lemma len_nonneg (s : text) : 0 <= len s.
Proof. unfold len. lia. Qed.

Lemma len_app (a b : text) : len (a ++ b) = len a + len b.
Proof. unfold len. rewrite length_app. lia. Qed.

Lemma firstn_skipn_glue {A} (k s : nat) (t : list A) :
  firstn k (skipn s t) ++ skipn (s + k) t = skipn s t.
Proof.
  rewrite Nat.add_comm, <- skipn_skipn. apply firstn_skipn.
Qed.

Lemma firstn_skipn_length {A} (k s : nat) (t : list A) :
  (s + k <= List.length t)%nat -> List.length (firstn k (skipn s t)) = k.
Proof.
  intros H. rewrite length_firstn, length_skipn. lia.
Qed.

Lemma substr_inside (s : text) (pos n : Z) :
  0 <= pos <= len s ->
  substr s pos n = Done (firstn (Z.to_nat n) (skipn (Z.to_nat pos) s)).
Proof.
  intros H. unfold substr.
  destruct (len s <? pos) eqn:E; [apply Z.ltb_lt in E; lia | reflexivity].
Qed.

Lemma substr_outside (s : text) (pos n : Z) :
  len s < pos -> substr s pos n = Raise out_of_range.
Proof.
  intros H. unfold substr.
  destruct (len s <? pos) eqn:E; [reflexivity | apply Z.ltb_ge in E; lia].
Qed.

Lemma submitted_app (a b : list action) :
  submitted (a ++ b) = submitted a ++ submitted b.
Proof.
  induction a as [|[item|c] a IH]; simpl; [reflexivity | assumption | now rewrite IH].
Qed.

Lemma submitted_asyncs (cs : list text) : submitted (map Async cs) = cs.
Proof. induction cs; simpl; congruence. Qed.

(** ** The uniform chunking loop *)

Lemma uniformLoop_spec (inputText : text) (chunkLength : Z) :
  0 <= chunkLength -> len inputText < SizeT.modulus ->
  forall (n : nat) (start e : Z) (futs : list action),
    0 <= start -> 0 <= e <= Z.of_nat n ->
    start + Z.of_nat n * chunkLength + e = len inputText ->
    exists cs,
      uniformLoop n inputText chunkLength start e futs = Done (futs ++ map Async cs)
      /\ List.length cs = n
      /\ concat cs = skipn (Z.to_nat start) inputText
      /\ forall i, (i < n)%nat ->
           len (nth i cs []) = chunkLength + (if Z.of_nat i <? e then 1 else 0).
Proof.
  intros Hcl Hlen n.
  induction n as [|n IH]; intros start e futs Hs He Hinv.
  - exists []. simpl. rewrite app_nil_r.
    repeat split; try reflexivity.
    + assert (Z.to_nat start = List.length inputText) by (unfold len in *; lia).
      symmetry. rewrite H. apply skipn_all.
    + intros i Hi. lia.
  - cbn [uniformLoop].
    rewrite substr_inside by nia. cbn [bind]. cbv zeta.
    unfold SizeT.add.
    rewrite (wrap_small (start + chunkLength)) by nia.
    destruct (0 <? e) eqn:Epos.
    + apply Z.ltb_lt in Epos.
      rewrite substr_inside by nia. cbn [bind].
      unfold SizeT.sub.
      rewrite (wrap_small (start + chunkLength + 1)) by nia.
      rewrite (wrap_small (e - 1)) by lia.
      destruct (IH (start + chunkLength + 1) (e - 1)
                  (futs ++ [Async (firstn (Z.to_nat chunkLength) (skipn (Z.to_nat start) inputText)
                                   ++ firstn (Z.to_nat 1) (skipn (Z.to_nat (start + chunkLength)) inputText))]))
        as (cs & Hrun & Hn & Hcat & Hlens); try nia.
      eexists (_ :: cs). rewrite Hrun. repeat split.
      * now rewrite <- app_assoc.
      * simpl. now rewrite Hn.
      * cbn [concat]. rewrite Hcat, <- app_assoc.
        replace (Z.to_nat (start + chunkLength + 1))
          with (Z.to_nat (start + chunkLength) + Z.to_nat 1)%nat by lia.
        rewrite firstn_skipn_glue.
        replace (Z.to_nat (start + chunkLength))
          with (Z.to_nat start + Z.to_nat chunkLength)%nat by lia.
        apply firstn_skipn_glue.
      * intros [|i] Hi.
        -- cbn [nth]. rewrite len_app. unfold len.
           rewrite !firstn_skipn_length by (unfold len in *; nia).
           replace (Z.of_nat 0 <? e) with true by (symmetry; apply Z.ltb_lt; lia).
           lia.
        -- cbn [nth]. rewrite Hlens by lia.
           destruct (Z.of_nat i <? e - 1) eqn:E1, (Z.of_nat (S i) <? e) eqn:E2;
             try reflexivity;
             [apply Z.ltb_lt in E1; apply Z.ltb_ge in E2
             |apply Z.ltb_ge in E1; apply Z.ltb_lt in E2]; lia.
    + apply Z.ltb_ge in Epos. assert (e = 0) by lia. subst e.
      destruct (IH (start + chunkLength) 0
                  (futs ++ [Async (firstn (Z.to_nat chunkLength) (skipn (Z.to_nat start) inputText))]))
        as (cs & Hrun & Hn & Hcat & Hlens); try nia.
      eexists (_ :: cs). rewrite Hrun. repeat split.
      * now rewrite <- app_assoc.
      * simpl. now rewrite Hn.
      * cbn [concat]. rewrite Hcat.
        replace (Z.to_nat (start + chunkLength))
          with (Z.to_nat start + Z.to_nat chunkLength)%nat by lia.
        apply firstn_skipn_glue.
      * intros [|i] Hi.
        -- cbn [nth]. unfold len.
           rewrite firstn_skipn_length by (unfold len in *; nia).
           replace (Z.of_nat 0 <? 0) with false by reflexivity. lia.
        -- cbn [nth]. rewrite Hlens by lia.
           destruct (Z.of_nat i <? 0) eqn:E1, (Z.of_nat (S i) <? 0) eqn:E2;
             try reflexivity;
             [apply Z.ltb_lt in E1 | apply Z.ltb_lt in E2]; lia.
Qed.

Lemma uniformChunks_spec (n : Z) (inputText : text) :
  1 <= n -> len inputText < SizeT.modulus ->
  exists cs,
    uniformChunks n inputText = Done (map Async cs)
    /\ List.length cs = Z.to_nat n
    /\ concat cs = inputText
    /\ forall i, (i < Z.to_nat n)%nat ->
         len (nth i cs []) =
         len inputText / n + (if Z.of_nat i <? len inputText mod n then 1 else 0).
Proof.
  intros Hn Hlen. unfold uniformChunks, SizeT.div.
  destruct (n =? 0) eqn:E; [apply Z.eqb_eq in E; lia|].
  pose proof (len_nonneg inputText) as H0.
  pose proof (Z.div_mod (len inputText) n ltac:(lia)) as Hdm.
  pose proof (Z.mod_pos_bound (len inputText) n ltac:(lia)) as Hmod.
  assert (0 <= len inputText / n) as Hq by (apply Z.div_pos; lia).
  unfold SizeT.mul, SizeT.sub.
  rewrite (wrap_small (n * (len inputText / n))) by nia.
  rewrite (wrap_small (len inputText - n * (len inputText / n))) by nia.
  replace (len inputText - n * (len inputText / n)) with (len inputText mod n) by lia.
  destruct (uniformLoop_spec inputText (len inputText / n) Hq Hlen
              (Z.to_nat n) 0 (len inputText mod n) [])
    as (cs & Hrun & Hcount & Hcat & Hlens); try nia.
  exists cs. repeat split; assumption.
Qed.

(** ** The Vigenere chunking loop *)

Lemma firstn_plus {A} (a b : nat) (l : list A) :
  firstn (a + b) l = firstn a l ++ firstn b (skipn a l).
Proof.
  revert l. induction a as [|a IH]; intros [|x l]; simpl;
    try reflexivity.
  - now rewrite firstn_nil.
  - now rewrite IH.
Qed.

(** Whatever the sizes, the loop ends, lets no exception out and
    submits no more chunks than it has iterations. *)
Lemma vigenereLoop_total (inputText : text) (chunkLength : Z) :
  forall (n : nat) (tc : Z) (futs : list action),
  exists acts,
    vigenereLoop n inputText chunkLength tc futs = Done (futs ++ acts)
    /\ (List.length (submitted acts) <= n)%nat.
Proof.
  induction n as [|n IH]; intros tc futs.
  - exists []. simpl. rewrite app_nil_r. split; [reflexivity | lia].
  - cbn [vigenereLoop]. cbv zeta.
    unfold substr.
    destruct (len inputText <? SizeT.mul tc chunkLength).
    + exists [Cout (CoutNum tc)]. split; [reflexivity | simpl; lia].
    + match goal with
      | |- context [vigenereLoop n _ _ ?t ?f] => destruct (IH t f) as (acts & Hrun & Hle)
      end.
      rewrite Hrun.
      eexists (Cout (CoutNum tc) :: Cout (CoutText _) :: Async _ :: acts).
      split.
      * rewrite <- !app_assoc. reflexivity.
      * simpl. lia.
Qed.

Lemma vigenereLoop_spec (inputText : text) (chunkLength : Z) :
  0 < chunkLength -> len inputText + chunkLength < SizeT.modulus ->
  forall (n : nat) (tc : Z) (futs : list action),
    0 <= tc -> tc + Z.of_nat n < SizeT.modulus ->
    tc * chunkLength <= len inputText + chunkLength ->
    exists acts,
      vigenereLoop n inputText chunkLength tc futs = Done (futs ++ acts)
      /\ (List.length (submitted acts) <= n)%nat
      /\ concat (submitted acts) =
         firstn (n * Z.to_nat chunkLength) (skipn (Z.to_nat (tc * chunkLength)) inputText)
      /\ forall i, (i < List.length (submitted acts))%nat ->
           nth i (submitted acts) [] =
             firstn (Z.to_nat chunkLength)
                    (skipn (Z.to_nat ((tc + Z.of_nat i) * chunkLength)) inputText)
           /\ (tc + Z.of_nat i) * chunkLength <= len inputText.
Proof.
  intros Hcl Hlen.
  pose proof (len_nonneg inputText) as H0.
  induction n as [|n IH]; intros tc futs Htc Hcount Hpos.
  - exists []. simpl. rewrite app_nil_r.
    repeat split; try reflexivity; try lia; simpl in *; lia.
  - cbn [vigenereLoop]. cbv zeta.
    unfold SizeT.mul, SizeT.add.
    rewrite (wrap_small (tc * chunkLength)) by nia.
    destruct (Z_le_gt_dec (tc * chunkLength) (len inputText)) as [Hin|Hout].
    + rewrite substr_inside by nia.
      rewrite (wrap_small (tc + 1)) by lia.
      match goal with
      | |- context [vigenereLoop n _ _ ?t ?f] =>
          destruct (IH t f) as (acts & Hrun & Hle & Hcat & Hnth); try nia
      end.
      rewrite Hrun.
      eexists (Cout (CoutNum tc) :: Cout (CoutText _) :: Async _ :: acts).
      split; [rewrite <- !app_assoc; reflexivity|].
      cbn [submitted]. split; [simpl; lia|]. split.
      * cbn [concat]. rewrite Hcat.
        replace (S n * Z.to_nat chunkLength)%nat
          with (Z.to_nat chunkLength + n * Z.to_nat chunkLength)%nat by lia.
        rewrite firstn_plus, skipn_skipn.
        do 3 f_equal. nia.
      * intros [|i] Hi.
        -- cbn [nth]. rewrite Z.add_0_r. split; [reflexivity | assumption].
        -- cbn [nth]. cbn [List.length] in Hi.
           destruct (Hnth i ltac:(lia)) as [Heq Hle'].
           replace (tc + Z.of_nat (S i)) with (tc + 1 + Z.of_nat i) by lia.
           split; assumption.
    + rewrite substr_outside by lia.
      exists [Cout (CoutNum tc)]. cbn [submitted concat List.length].
      repeat split; try reflexivity; try lia.
      rewrite skipn_all2 by (unfold len in *; lia).
      now rewrite firstn_nil.
Qed.

(** The chunk length of l.179 is a multiple of the key length, and
    [threadNum] chunks of that length are longer than the text. *)
Lemma vigenere_chunkLength (n k l : Z) :
  1 <= n -> 1 <= k -> 0 <= l ->
  let chunkLength := (l / k / n + 1) * k in
  k <= chunkLength <= l + k /\ l < n * chunkLength.
Proof.
  intros Hn Hk Hl chunkLength. subst chunkLength.
  assert (0 <= l / k) as Hq by (apply Z.div_pos; lia).
  assert (0 <= l / k / n) as Hq' by (apply Z.div_pos; lia).
  pose proof (Z.div_mod l k ltac:(lia)) as D1.
  pose proof (Z.mod_pos_bound l k ltac:(lia)) as M1.
  pose proof (Z.div_mod (l / k) n ltac:(lia)) as D2.
  pose proof (Z.mod_pos_bound (l / k) n ltac:(lia)) as M2.
  repeat split; nia.
Qed.

Lemma vigenereChunks_spec (n : Z) (cipherKey inputText : text) :
  1 <= n < SizeT.modulus -> cipherKey <> [] ->
  len inputText + (len inputText + len cipherKey) < SizeT.modulus ->
  let chunkLength := (len inputText / len cipherKey / n + 1) * len cipherKey in
  exists acts,
    vigenereChunks n cipherKey inputText = Done acts
    /\ (List.length (submitted acts) <= Z.to_nat n)%nat
    /\ concat (submitted acts) = inputText
    /\ forall i, (i < List.length (submitted acts))%nat ->
         nth i (submitted acts) [] =
           firstn (Z.to_nat chunkLength)
                  (skipn (Z.to_nat (Z.of_nat i * chunkLength)) inputText)
         /\ Z.of_nat i * chunkLength <= len inputText.
Proof.
  intros Hn Hkey Hlen chunkLength.
  assert (1 <= len cipherKey) as Hk.
  { destruct cipherKey; [congruence | unfold len; simpl; lia]. }
  pose proof (len_nonneg inputText) as H0.
  destruct (vigenere_chunkLength n (len cipherKey) (len inputText)) as [Hb Hcover]; try lia.
  fold chunkLength in Hb, Hcover.
  unfold vigenereChunks, SizeT.div.
  destruct (len cipherKey =? 0) eqn:E; [apply Z.eqb_eq in E; lia|].
  destruct (n =? 0) eqn:E'; [apply Z.eqb_eq in E'; lia|].
  assert (0 <= len inputText / len cipherKey / n) as Hq'
    by (apply Z.div_pos; [apply Z.div_pos|]; lia).
  unfold SizeT.mul, SizeT.add.
  rewrite (wrap_small (len inputText / len cipherKey / n + 1)) by nia.
  fold chunkLength.
  rewrite (wrap_small chunkLength) by nia.
  destruct (vigenereLoop_spec inputText chunkLength ltac:(lia) ltac:(lia)
              (Z.to_nat n) 0 []) as (acts & Hrun & Hle & Hcat & Hnth); try lia.
  exists acts. simpl in Hrun. split; [assumption|]. split; [assumption|]. split.
  - rewrite Hcat. simpl. apply firstn_all2. unfold len in *. nia.
  - intros i Hi. destruct (Hnth i Hi) as [Heq Hle']. simpl in Heq, Hle'.
    split; assumption.
Qed.

(** ** Futures: what every interleaving keeps *)

Lemma gots_app (a b : list event) : gots (a ++ b) = gots a ++ gots b.
Proof. apply flat_map_app. Qed.

Lemma wrotes_app (a b : list event) : wrotes (a ++ b) = wrotes a ++ wrotes b.
Proof. apply flat_map_app. Qed.

Lemma appliers_app (a b : list event) : appliers (a ++ b) = appliers a ++ appliers b.
Proof. apply flat_map_app. Qed.

Lemma polls_app (a b : list event) : polls (a ++ b) = polls a ++ polls b.
Proof. apply filter_app. Qed.

Lemma length_update {A} (i : nat) (v : A) (l : list A) :
  List.length (update i v l) = List.length l.
Proof.
  revert i. induction l as [|x l IH]; intros [|i]; simpl; auto.
Qed.

Lemma firstn_update_ready (i j : nat) (r : text) (fs : list future) :
  forallb isReady (firstn j fs) = true ->
  forallb isReady (firstn j (update i (Ready r) fs)) = true.
Proof.
  revert i j. induction fs as [|x fs IH]; intros [|i] [|j]; simpl; auto.
  - intros H. apply andb_true_iff in H as [_ H]. exact H.
  - intros H. apply andb_true_iff in H as [Hx H].
    rewrite Hx. simpl. now apply IH.
Qed.

Lemma agrees_update (f : text -> text) (i : nat) (input : text) :
  forall (fs : list future) (cs : list text),
    Forall2 (agrees f) fs cs ->
    nth_error fs i = Some (Running input) ->
    Forall2 (agrees f) (update i (Ready (f input)) fs) cs.
Proof.
  induction i as [|i IH]; intros fs cs H Hi; destruct H as [|x c fs cs Hx H];
    simpl in *; try discriminate.
  - injection Hi as ->. constructor; [|assumption]. simpl in *. now subst.
  - constructor; [assumption|]. now apply IH.
Qed.

Lemma ready_count_update (i : nat) (input r : text) :
  forall fs : list future,
    nth_error fs i = Some (Running input) ->
    List.length (filter isReady (update i (Ready r) fs))
    = S (List.length (filter isReady fs))
    /\ S (running (update i (Ready r) fs)) = running fs.
Proof.
  unfold running.
  induction i as [|i IH]; intros [|x fs] Hi; simpl in *; try discriminate.
  - injection Hi as ->. simpl. split; reflexivity.
  - destruct (IH fs Hi) as [H1 H2].
    destruct x; simpl; rewrite ?H1; split; try reflexivity; simpl; lia.
Qed.

Lemma agrees_ready_at (f : text -> text) (i : nat) (r : text) :
  forall (fs : list future) (cs : list text),
    Forall2 (agrees f) fs cs ->
    nth_error fs i = Some (Ready r) ->
    (i < List.length cs)%nat /\ r = f (nth i cs [])
    /\ firstn (S i) cs = firstn i cs ++ [nth i cs []]
    /\ firstn (S i) fs = firstn i fs ++ [Ready r].
Proof.
  induction i as [|i IH]; intros fs cs H Hi; destruct H as [|x c fs cs Hx H];
    simpl in *; try discriminate.
  - injection Hi as ->. simpl in Hx. repeat split; [lia | assumption].
  - destruct (IH fs cs H Hi) as (H1 & H2 & H3 & H4).
    repeat split; [lia | assumption | now rewrite <- H3 | now rewrite <- H4].
Qed.

Lemma Forall2_snoc {A B} (R : A -> B -> Prop) (l : list A) (m : list B) (a : A) (b : B) :
  Forall2 R l m -> R a b -> Forall2 R (l ++ [a]) (m ++ [b]).
Proof.
  intros H Hab. apply Forall2_app; [assumption | constructor; [assumption | constructor]].
Qed.

Ltac trace_simpl :=
  rewrite ?gots_app, ?wrotes_app, ?polls_app, ?appliers_app;
  cbn [gots wrotes polls appliers flat_map filter isPolling app
       timeoutEvents readyEvents];
  rewrite ?app_nil_r.

Lemma collected_worker (f : text -> text) (chunks : list text) (k i : nat)
    (input : text) (p p' : pc) (fs : list future) (flag flag' : Z) (out : text)
    (tr : list event) :
  nth_error fs i = Some (Running input) ->
  collected f chunks k (St p fs flag out tr) ->
  collected f chunks k
    (St p' (update i (Ready (f input)) fs) flag' out (tr ++ [Applied (Worker i) input])).
Proof.
  intros Hi (H1 & H2 & H3 & H4 & H5).
  unfold collected in *. cbn [futures outputText trace] in *.
  repeat split; try assumption.
  - now apply agrees_update.
  - now apply firstn_update_ready.
  - now trace_simpl.
Qed.

Lemma collected_same (f : text -> text) (chunks : list text) (k : nat) (s s' : state) :
  collected f chunks k s ->
  futures s' = futures s -> outputText s' = outputText s ->
  gots (trace s') = gots (trace s) ->
  collected f chunks k s'.
Proof.
  unfold collected. intros H H1 H2 H3. now rewrite H1, H2, H3.
Qed.

Ltac inv_split := split; [|split; [|split]].
Ltac unchanged := eapply collected_same; [eassumption | | | ];
                  cbn [futures outputText trace]; trace_simpl; reflexivity.

Lemma step_keeps_Inv (d : driver) (f : text -> text) (chunks : list text)
    (s s' : state) :
  Inv f chunks s -> step d f s s' -> Inv f chunks s'.
Proof.
  intros (Hpoll & Hmain & Hcount & Hpc) Hstep.
  destruct Hstep; unfold Inv in *;
    cbn [trace futures at_ outputText allFuturesReady] in *;
    try contradiction.
  - (* a worker ends *)
    destruct (ready_count_update i input (f input) fs H) as [Hready _].
    inv_split.
    + now trace_simpl.
    + trace_simpl. rewrite in_app_iff. intros [Hin|[Hin|[]]];
        [contradiction | discriminate].
    + trace_simpl. rewrite length_app, Hready. simpl. lia.
    + destruct p; try contradiction.
      * destruct Hpc as (done & H1 & H2 & H3 & H4 & H5).
        exists done. repeat split; try assumption;
          [now apply agrees_update | now trace_simpl | now trace_simpl].
      * destruct Hpc as (Hc & Hflag & Hw).
        split; [|split]; [eapply collected_worker; eassumption | assumption | now trace_simpl].
      * destruct Hpc as (Hc & Hw).
        split; [eapply collected_worker; eassumption | now trace_simpl].
      * destruct Hpc as (Hc & Hw).
        split; [eapply collected_worker; eassumption | now trace_simpl].
      * destruct Hpc as (Hc & Hw).
        split; [eapply collected_worker; eassumption | now trace_simpl].
  - (* a line on std::cout *)
    destruct Hpc as (done & H1 & H2 & H3 & H4 & H5).
    inv_split; try (trace_simpl; assumption).
    exists done. repeat split; try assumption; now trace_simpl.
  - (* a chunk is submitted *)
    destruct Hpc as (done & H1 & H2 & H3 & H4 & H5).
    inv_split; try assumption.
    + rewrite filter_app. simpl. now rewrite app_nil_r.
    + exists (done ++ [chunk]). repeat split; try assumption.
      * rewrite H1. cbn [submitted]. now rewrite <- app_assoc.
      * apply Forall2_snoc; [assumption | reflexivity].
  - (* the chunking loop is left *)
    destruct Hpc as (done & H1 & H2 & H3 & H4 & H5).
    cbn [submitted] in H1. rewrite app_nil_r in H1. subst done.
    inv_split; try assumption.
    split; [|split]; try assumption; try reflexivity.
    unfold collected. cbn [futures outputText trace].
    repeat split; try assumption; try reflexivity. lia.
  - (* the polling loop is entered: excluded, the flag is 1 *)
    destruct Hpc as (_ & Hflag & _). discriminate.
  - (* the polling loop is skipped *)
    destruct Hpc as (Hc & _ & Hw). inv_split; try assumption.
    split; [unchanged | assumption].
  - (* get() returns *)
    destruct Hpc as ((H1 & H2 & H3 & H4 & H5) & Hw).
    cbn [futures outputText trace] in *.
    destruct (agrees_ready_at f i result fs chunks H1 H) as (Hi & Hr & Hcs & Hfs).
    inv_split; try (trace_simpl; assumption).
    split; [|now trace_simpl].
    unfold collected. cbn [futures outputText trace].
    split; [assumption|]. split; [lia|]. split; [|split].
    + rewrite Hfs, forallb_app, H3. reflexivity.
    + rewrite Hcs, map_app, concat_app, H4. simpl.
      now rewrite app_nil_r, Hr.
    + trace_simpl. rewrite H5, seq_S. reflexivity.
  - (* every future has been collected *)
    destruct Hpc as (Hc & Hw).
    pose proof Hc as (H1 & H2 & _). cbn [futures] in H1.
    pose proof (Forall2_length H1) as Hlen.
    assert (i = List.length chunks) by lia. subst i.
    inv_split; try assumption.
    split; [unchanged | assumption].
  - (* the output is written *)
    destruct Hpc as (Hc & Hw).
    inv_split; try (trace_simpl; assumption).
    split; [unchanged|]. trace_simpl. now rewrite Hw.
  - (* the output file cannot be opened *)
    destruct Hpc as (Hc & Hw).
    inv_split; try (trace_simpl; assumption).
    split; [unchanged|]. trace_simpl. now rewrite Hw.
Qed.

Lemma Inv_start (f : text -> text) (acts : list action) :
  Inv f (submitted acts) (start (Threaded acts)).
Proof.
  unfold Inv, start. cbn. inv_split; try reflexivity; [tauto|].
  exists []. repeat split; constructor.
Qed.

Lemma steps_keep_Inv (d : driver) (f : text -> text) (chunks : list text)
    (s s' : state) :
  Inv f chunks s -> steps d f s s' -> Inv f chunks s'.
Proof.
  intros HI Hsteps. induction Hsteps as [s|s1 s2 s3 _ IH Hstep].
  - assumption.
  - eapply step_keeps_Inv; [apply IH, HI | exact Hstep].
Qed.

Lemma steps_first (d : driver) (f : text -> text) (s1 s2 s3 : state) :
  step d f s1 s2 -> steps d f s2 s3 -> steps d f s1 s3.
Proof.
  intros H12 H23. induction H23 as [s|s2 s3 s4 _ IH Hstep].
  - eapply steps_more; [apply steps_refl | exact H12].
  - eapply steps_more; [apply IH, H12 | exact Hstep].
Qed.

Lemma steps_append (d : driver) (f : text -> text) (s1 s2 s3 : state) :
  steps d f s1 s2 -> steps d f s2 s3 -> steps d f s1 s3.
Proof.
  intros H12 H23. induction H23 as [s|s2 s3 s4 _ IH Hstep].
  - assumption.
  - eapply steps_more; [apply IH, H12 | exact Hstep].
Qed.

(** Every step of a run on futures brings the end nearer. *)
Lemma step_decreases (d : driver) (f : text -> text) (chunks : list text)
    (s s' : state) :
  Inv f chunks s -> step d f s s' -> (measure s' < measure s)%nat.
Proof.
  intros (_ & _ & _ & Hpc) Hstep.
  destruct Hstep; unfold measure; cbn [at_ futures] in *; try contradiction.
  - destruct (ready_count_update i input (f input) fs H) as [_ Hrun].
    rewrite length_update. destruct p; try contradiction; lia.
  - simpl. lia.
  - unfold running. rewrite filter_app, !length_app. simpl. lia.
  - simpl. lia.
  - destruct Hpc as (_ & Hflag & _). discriminate.
  - lia.
  - assert (i < List.length fs)%nat by (apply nth_error_Some; congruence). lia.
  - lia.
  - lia.
  - lia.
Qed.

(** A run on futures that has not returned can go on, and towards a
    written output. *)
Lemma step_exists (d : driver) (f : text -> text) (chunks : list text) (s : state) :
  Inv f chunks s -> (forall c, at_ s <> Returned c) ->
  exists s', step d f s s' /\ (at_ s' = Returned 0 \/ forall c, at_ s' <> Returned c).
Proof.
  intros (_ & _ & _ & Hpc) Hnot.
  destruct s as [p fs flag out tr]. cbn [at_ futures allFuturesReady] in *.
  destruct p as [t|todo| |i|i| |c]; try contradiction.
  - destruct todo as [|[item|chunk] todo]; eexists;
      (split; [first [apply step_chunked | apply step_cout | apply step_async]
              | right; intros c; discriminate]).
  - destruct Hpc as (_ & Hflag & _). subst flag.
    eexists. split; [apply step_poll_leave; lia | right; intros c; discriminate].
  - destruct (nth_error fs i) as [[input|result]|] eqn:E.
    + eexists. split; [eapply step_worker; exact E | right; intros c; discriminate].
    + eexists. split; [eapply step_get; exact E | right; intros c; discriminate].
    + eexists. split; [apply step_collected; now apply nth_error_None
                      | right; intros c; discriminate].
  - eexists. split; [apply step_write | left; reflexivity].
  - exfalso. now apply (Hnot c).
Qed.

(** Every run on futures can be carried on to the point where the
    output has been written. *)
Lemma run_completes (d : driver) (f : text -> text) (chunks : list text) :
  forall (m : nat) (s : state),
    (measure s < m)%nat -> Inv f chunks s -> (forall c, at_ s <> Returned c) ->
    exists s', steps d f s s' /\ at_ s' = Returned 0.
Proof.
  induction m as [|m IH]; intros s Hm HI Hnot; [lia|].
  destruct (step_exists d f chunks s HI Hnot) as (s1 & Hstep & Hend).
  pose proof (step_decreases d f chunks s s1 HI Hstep) as Hdec.
  pose proof (step_keeps_Inv d f chunks s s1 HI Hstep) as HI1.
  destruct Hend as [Hend|Hend].
  - exists s1. split; [eapply steps_first; [exact Hstep | apply steps_refl] | exact Hend].
  - destruct (IH s1 ltac:(lia) HI1 Hend) as (s' & Hsteps & Hret).
    exists s'. split; [eapply steps_first; eassumption | exact Hret].
Qed.

Lemma reassemble_concat (f : text -> text) (chunks : list text) :
  reassemble f chunks = concat (map f chunks).
Proof.
  unfold reassemble.
  assert (forall acc, fold_left (fun out chunk => out ++ f chunk) chunks acc
                      = acc ++ concat (map f chunks)) as H.
  { induction chunks as [|c cs IH]; intros acc; simpl.
    - now rewrite app_nil_r.
    - now rewrite IH, app_assoc. }
  apply (H []).
Qed.

Lemma In_wrotes (tr : list event) (out : text) :
  In (Wrote out) tr <-> In out (wrotes tr).
Proof.
  unfold wrotes. rewrite in_flat_map. split.
  - intros H. exists (Wrote out). split; [assumption | now left].
  - intros (e & He & Hin). destruct e; simpl in Hin; try contradiction.
    destruct Hin as [->|[]]. assumption.
Qed.

(** The states of a run that calls the cipher on the main thread. *)
Lemma synchronous_states (d : driver) (f : text -> text) (inputText : text) (s : state) :
  steps d f (start (Synchronous inputText)) s ->
  s = St (Calling inputText) [] 1 [] []
  \/ s = St Writing [] 1 (f inputText) [Applied MainThread inputText]
  \/ s = St (Returned 0) [] 1 (f inputText)
          [Applied MainThread inputText; Wrote (f inputText)]
  \/ s = St (Returned 1) [] 1 (f inputText)
          [Applied MainThread inputText; OpenFailed].
Proof.
  intros H. remember (start (Synchronous inputText)) as s0 eqn:E.
  induction H as [s|s1 s2 s3 _ IH Hstep]; [left; subst; reflexivity|].
  specialize (IH E).
  destruct IH as [-> | [-> | [-> | ->]]]; inversion Hstep; subst;
    try (match goal with H : nth_error [] ?i = Some _ |- _ => destruct i; discriminate end);
    auto.
Qed.

(** Whatever a run of a plan writes is the output of the plan. *)
Lemma run_writes_planOutput (d : driver) (f : text -> text) (p : plan) (s : state)
    (out : text) :
  steps d f (start p) s -> In (Wrote out) (trace s) -> out = planOutput f p.
Proof.
  intros Hsteps Hin. destruct p as [inputText|acts].
  - destruct (synchronous_states d f inputText s Hsteps) as [-> | [-> | [-> | ->]]];
      simpl in Hin; intuition (try discriminate);
      match goal with H : Wrote _ = Wrote _ |- _ => injection H as <- end;
      reflexivity.
  - pose proof (steps_keep_Inv d f _ _ _ (Inv_start f acts) Hsteps) as (_ & _ & _ & Hpc).
    apply In_wrotes in Hin. simpl. rewrite reassemble_concat.
    destruct (at_ s) as [t|todo| |i|i| |c]; try contradiction.
    + destruct Hpc as (done & _ & _ & _ & _ & Hw). rewrite Hw in Hin. contradiction.
    + destruct Hpc as (_ & _ & Hw). rewrite Hw in Hin. contradiction.
    + destruct Hpc as (_ & Hw). rewrite Hw in Hin. contradiction.
    + destruct Hpc as (_ & Hw). rewrite Hw in Hin. contradiction.
    + destruct Hpc as ((_ & _ & _ & Hout & _) & Hw). rewrite Hw in Hin.
      destruct (c =? 0); [|contradiction].
      destruct Hin as [<-|[]]. now rewrite Hout, firstn_all.
Qed.

(** ** Letters *)

Lemma code_chr (z : Z) : 0 <= z < 256 -> code (chr z) = z.
Proof.
  intros H. unfold code, chr. rewrite nat_ascii_embedding by lia. lia.
Qed.

Lemma chr_code (c : ascii) : chr (code c) = c.
Proof.
  unfold code, chr. rewrite Nat2Z.id. apply ascii_nat_embedding.
Qed.

Lemma isUpper_range (c : ascii) : isUpper c = true <-> 65 <= code c <= 90.
Proof.
  unfold isUpper. rewrite andb_true_iff, !Z.leb_le. tauto.
Qed.

Lemma isUpper_chr (x : Z) : 0 <= x < 26 -> isUpper (chr (x + 65)) = true.
Proof.
  intros H. apply isUpper_range. rewrite code_chr by lia. lia.
Qed.

Lemma shiftLetter_upper (mode : CipherMode) (s : Z) (c : ascii) :
  isUpper c = true -> isUpper (shiftLetter mode s c) = true.
Proof.
  intros H. unfold shiftLetter. rewrite H.
  destruct mode; apply isUpper_chr; apply Z.mod_pos_bound; lia.
Qed.

(** Decrypting a letter undoes encrypting it, whatever the shift. *)
Lemma shiftLetter_round_trip (s : Z) (c : ascii) :
  shiftLetter Decrypt s (shiftLetter Encrypt s c) = c.
Proof.
  destruct (isUpper c) eqn:E.
  - pose proof (shiftLetter_upper Encrypt s c E) as E'.
    unfold shiftLetter at 1. rewrite E'.
    unfold shiftLetter. rewrite E.
    apply isUpper_range in E.
    assert (0 <= (code c - 65 + s) mod 26 < 26) as Hy
      by (apply Z.mod_pos_bound; lia).
    rewrite code_chr by lia.
    replace ((code c - 65 + s) mod 26 + 65 - 65) with ((code c - 65 + s) mod 26) by lia.
    rewrite Zminus_mod_idemp_l.
    replace (code c - 65 + s - s) with (code c - 65) by lia.
    rewrite Z.mod_small by lia.
    replace (code c - 65 + 65) with (code c) by lia.
    apply chr_code.
  - unfold shiftLetter. rewrite E. unfold shiftLetter. now rewrite E.
Qed.

(** ** The shift cipher on chunks *)

Lemma caesarApply_app (key : Z) (mode : CipherMode) (a b : text) :
  caesarApply key (a ++ b) mode = caesarApply key a mode ++ caesarApply key b mode.
Proof. apply map_app. Qed.

Lemma caesarApply_concat (key : Z) (mode : CipherMode) (chunks : list text) :
  concat (map (fun c => caesarApply key c mode) chunks)
  = caesarApply key (concat chunks) mode.
Proof.
  induction chunks as [|c cs IH]; simpl; [reflexivity|].
  now rewrite caesarApply_app, IH.
Qed.

Lemma caesar_round_trip (key : Z) (t : text) :
  caesarApply key (caesarApply key t Encrypt) Decrypt = t.
Proof.
  unfold caesarApply. rewrite map_map.
  induction t as [|c t IH]; simpl; [reflexivity|].
  now rewrite shiftLetter_round_trip, IH.
Qed.

(** ** The polyalphabetic cipher on chunks *)

Lemma vigenereFrom_app (key : text) (mode : CipherMode) (a b : text) :
  forall i,
    vigenereFrom key mode i (a ++ b)
    = vigenereFrom key mode i a ++ vigenereFrom key mode (i + List.length a) b.
Proof.
  induction a as [|c a IH]; intros i; simpl.
  - now rewrite Nat.add_0_r.
  - rewrite IH. now rewrite Nat.add_succ_r.
Qed.

Lemma keyShift_period (key : text) (i m : nat) :
  keyShift key (i + m * List.length key) = keyShift key i.
Proof.
  unfold keyShift. destruct key as [|k key].
  - now destruct (_ mod _)%nat, (_ mod _)%nat.
  - now rewrite Nat.Div0.mod_add.
Qed.

Lemma vigenereFrom_period (key : text) (mode : CipherMode) (m : nat) (t : text) :
  forall i,
    vigenereFrom key mode (i + m * List.length key) t = vigenereFrom key mode i t.
Proof.
  induction t as [|c t IH]; intros i; simpl; [reflexivity|].
  rewrite keyShift_period. f_equal.
  apply (IH (S i)).
Qed.

(** A chunk that starts at a multiple of the key length is enciphered
    on its own exactly as inside the stream. *)
Lemma vigenereFrom_aligned (key : text) (mode : CipherMode) (from : nat) (t : text) :
  (from mod List.length key = 0)%nat ->
  vigenereFrom key mode from t = vigenereFrom key mode 0 t.
Proof.
  intros H. destruct key as [|k key].
  - simpl in H. now subst.
  - pose proof (Nat.Div0.div_mod from (List.length (k :: key))) as D.
    rewrite H, Nat.add_0_r, Nat.mul_comm in D. rewrite D.
    apply (vigenereFrom_period (k :: key) mode _ t 0%nat).
Qed.

Lemma vigenere_aligned_chunks (key : text) (mode : CipherMode) :
  forall (chunks : list text) (from : nat),
    Forall (fun o => o mod List.length key = 0)%nat (offsets from chunks) ->
    concat (map (fun c => vigenereApply key c mode) chunks)
    = vigenereFrom key mode from (concat chunks).
Proof.
  induction chunks as [|c cs IH]; intros from H; simpl; [reflexivity|].
  simpl in H. inversion H as [|o os Hfrom Hrest]; subst.
  rewrite vigenereFrom_app, <- (IH _ Hrest).
  f_equal. unfold vigenereApply. symmetry. now apply vigenereFrom_aligned.
Qed.

Lemma vigenere_round_trip (key : text) (t : text) :
  vigenereApply key (vigenereApply key t Encrypt) Decrypt = t.
Proof.
  unfold vigenereApply. generalize 0%nat as i.
  induction t as [|c t IH]; intros i; simpl; [reflexivity|].
  now rewrite shiftLetter_round_trip, IH.
Qed.

(** Chunks that all have the same length but the last start at the
    multiples of that length. *)
Lemma offsets_regular (cl : nat) :
  forall (chunks : list text) (from : nat),
    (forall i, (S i < List.length chunks)%nat -> List.length (nth i chunks []) = cl) ->
    forall i, (i < List.length chunks)%nat ->
      nth i (offsets from chunks) 0%nat = (from + i * cl)%nat.
Proof.
  induction chunks as [|c cs IH]; intros from Hlen i Hi; simpl in *; [lia|].
  destruct i as [|i]; [lia|].
  rewrite IH.
  - rewrite (Hlen 0%nat) by lia. lia.
  - intros j Hj. apply (Hlen (S j)). lia.
  - lia.
Qed.

Lemma offsets_length (chunks : list text) :
  forall from, List.length (offsets from chunks) = List.length chunks.
Proof.
  induction chunks as [|c cs IH]; intros from; simpl; [reflexivity | now rewrite IH].
Qed.

(** ** The key square *)

Lemma dedup_In (c : ascii) (l : text) : In c (dedup l) <-> In c l.
Proof.
  induction l as [|x l IH]; simpl; [tauto|].
  rewrite filter_In, IH, negb_true_iff, Ascii.eqb_neq.
  destruct (ascii_dec x c); [subst|]; intuition congruence.
Qed.

Lemma dedup_NoDup (l : text) : NoDup (dedup l).
Proof.
  induction l as [|x l IH]; simpl; constructor.
  - rewrite filter_In, negb_true_iff, Ascii.eqb_neq. tauto.
  - now apply NoDup_filter.
Qed.

Lemma inSquare_In (c : ascii) : inSquare c = true <-> In c letters25.
Proof.
  unfold inSquare. rewrite existsb_exists. split.
  - intros (x & Hx & E). apply Ascii.eqb_eq in E. now subst.
  - intros H. exists c. split; [assumption | apply Ascii.eqb_refl].
Qed.

Lemma inSquare_spec (c : ascii) :
  inSquare c = isUpper c && negb (Ascii.eqb c "J").
Proof.
  destruct c as [[] [] [] [] [] [] [] []]; reflexivity.
Qed.

Lemma inSquare_mergeJ (c : ascii) : isUpper c = true -> inSquare (mergeJ c) = true.
Proof.
  destruct c as [[] [] [] [] [] [] [] []]; intros H; try discriminate H; reflexivity.
Qed.

Lemma mergeJ_inSquare (c : ascii) : inSquare c = true -> mergeJ c = c.
Proof.
  destruct c as [[] [] [] [] [] [] [] []]; intros H; try discriminate H; reflexivity.
Qed.

Lemma toUpper_alpha (c : ascii) : isAlpha c = true -> isUpper (toUpper c) = true.
Proof.
  destruct c as [[] [] [] [] [] [] [] []]; intros H; try discriminate H; reflexivity.
Qed.

Lemma letters25_NoDup : NoDup letters25.
Proof.
  unfold letters25, lit. simpl.
  repeat (constructor; [simpl; intuition discriminate|]). constructor.
Qed.

(** The square of an upper-case keyword holds the 25 letters, once each. *)
Lemma playfairSquare_In (keyword : text) (c : ascii) :
  forallb isUpper keyword = true ->
  In c (playfairSquare keyword) <-> inSquare c = true.
Proof.
  intros Hkey. unfold playfairSquare. rewrite dedup_In, in_map_iff. split.
  - intros (x & <- & Hx). apply inSquare_mergeJ.
    apply in_app_or in Hx as [Hx|Hx].
    + rewrite forallb_forall in Hkey. now apply Hkey.
    + unfold alphabet, lit in Hx. simpl in Hx.
      repeat (destruct Hx as [<-|Hx]; [reflexivity|]). contradiction.
  - intros H. exists c. split; [now apply mergeJ_inSquare|].
    apply in_or_app. right.
    rewrite inSquare_spec in H. apply andb_true_iff in H as [H _].
    revert H. destruct c as [[] [] [] [] [] [] [] []]; intros H;
      try discriminate H; unfold alphabet, lit; simpl; tauto.
Qed.

Lemma playfairSquare_NoDup (keyword : text) : NoDup (playfairSquare keyword).
Proof. apply dedup_NoDup. Qed.

Lemma playfairSquare_length (keyword : text) :
  forallb isUpper keyword = true -> List.length (playfairSquare keyword) = 25%nat.
Proof.
  intros Hkey.
  assert (List.length (playfairSquare keyword) <= List.length letters25)%nat as H1.
  { apply NoDup_incl_length; [apply playfairSquare_NoDup|].
    intros c Hc. apply inSquare_In. now apply (playfairSquare_In keyword c Hkey). }
  assert (List.length letters25 <= List.length (playfairSquare keyword))%nat as H2.
  { apply NoDup_incl_length; [apply letters25_NoDup|].
    intros c Hc. apply (playfairSquare_In keyword c Hkey). now apply inSquare_In. }
  change (List.length letters25) with 25%nat in *. lia.
Qed.

(** ** Positions in the square *)

Lemma indexOf_In (c : ascii) (l : text) :
  In c l -> exists i, indexOf c l = Some i /\ (i < List.length l)%nat
                      /\ nth i l "A"%char = c.
Proof.
  induction l as [|x l IH]; simpl; [contradiction|].
  intros H. destruct (Ascii.eqb c x) eqn:E.
  - apply Ascii.eqb_eq in E. subst. exists 0%nat. repeat split; lia.
  - destruct H as [->|H]; [now rewrite Ascii.eqb_refl in E|].
    destruct (IH H) as (i & Hi & Hlt & Hnth).
    exists (S i). rewrite Hi. repeat split; [lia | assumption].
Qed.

Lemma indexOf_nth (l : text) :
  NoDup l -> forall i, (i < List.length l)%nat ->
  indexOf (nth i l "A"%char) l = Some i.
Proof.
  induction 1 as [|x l Hx Hnd IH]; intros i Hi; simpl in *; [lia|].
  destruct i as [|i]; [now rewrite Ascii.eqb_refl|].
  assert (i < List.length l)%nat as Hi' by lia.
  destruct (Ascii.eqb (nth i l "A"%char) x) eqn:E.
  - apply Ascii.eqb_eq in E. exfalso. apply Hx. rewrite <- E. now apply nth_In.
  - now rewrite IH.
Qed.

Lemma nth_NoDup_inj (l : text) (i j : nat) :
  NoDup l -> (i < List.length l)%nat -> (j < List.length l)%nat ->
  nth i l "A"%char = nth j l "A"%char -> i = j.
Proof.
  intros Hnd Hi Hj E. now apply (proj1 (NoDup_nth l "A"%char) Hnd).
Qed.

Lemma cellsOk_encrypt : cellsOk Encrypt Decrypt = true.
Proof. vm_compute. reflexivity. Qed.

Lemma cells_round_trip (i j : nat) :
  (i < 25)%nat -> (j < 25)%nat -> i <> j ->
  let (i', j') := digraphCells Encrypt i j in
  (i' < 25)%nat /\ (j' < 25)%nat /\ i' <> j'
  /\ digraphCells Decrypt i' j' = (i, j).
Proof.
  intros Hi Hj Hne.
  pose proof cellsOk_encrypt as H. unfold cellsOk in H.
  rewrite forallb_forall in H. specialize (H i ltac:(apply in_seq; lia)).
  rewrite forallb_forall in H. specialize (H j ltac:(apply in_seq; lia)).
  destruct (i =? j)%nat eqn:E; [apply Nat.eqb_eq in E; contradiction|].
  destruct (digraphCells Encrypt i j) as [i' j'].
  destruct (digraphCells Decrypt i' j') as [i'' j''].
  rewrite !andb_true_iff, negb_true_iff in H.
  destruct H as (((H1 & H2) & H3) & H4 & H5).
  apply Nat.ltb_lt in H1, H2. apply Nat.eqb_neq in H3.
  apply Nat.eqb_eq in H4, H5. subst. repeat split; assumption.
Qed.

(** ** Digraphs *)

Lemma pair_ind (P : text -> Prop) :
  P [] -> (forall a, P [a]) -> (forall a b t, P t -> P (a :: b :: t)) ->
  forall t, P t.
Proof.
  intros H0 H1 H2 t.
  assert (P t /\ forall a, P (a :: t)) as [H _]; [|exact H].
  induction t as [|b t [IH IH']]; split; auto.
Qed.

Section Square.

Variable square : text.
Hypothesis square_NoDup : NoDup square.
Hypothesis square_length : List.length square = 25%nat.
Hypothesis square_In : forall c, In c square <-> inSquare c = true.

Lemma digraph_round_trip (a b : ascii) :
  inSquare a = true -> inSquare b = true -> a <> b ->
  let (a', b') := digraph Encrypt square a b in
  inSquare a' = true /\ inSquare b' = true /\ a' <> b'
  /\ digraph Decrypt square a' b' = (a, b).
Proof.
  intros Ha Hb Hne.
  destruct (indexOf_In a square (proj2 (square_In a) Ha)) as (i & Hi & Hlt & Hnth).
  destruct (indexOf_In b square (proj2 (square_In b) Hb)) as (j & Hj & Hlt' & Hnth').
  assert (i <> j) as Hij by (intros ->; congruence).
  rewrite square_length in Hlt, Hlt'.
  pose proof (cells_round_trip i j Hlt Hlt' Hij) as H.
  unfold digraph at 1. rewrite Hi, Hj.
  destruct (digraphCells Encrypt i j) as [i' j'].
  destruct H as (H1 & H2 & H3 & H4).
  split; [apply square_In, nth_In; lia|].
  split; [apply square_In, nth_In; lia|].
  split.
  - intros E. apply H3. apply (nth_NoDup_inj square); try lia; assumption.
  - unfold digraph. rewrite !indexOf_nth by (assumption || lia).
    rewrite H4. now rewrite Hnth, Hnth'.
Qed.

Lemma digraphs_round_trip (t : text) :
  forallb inSquare t = true -> paired t = true ->
  forallb inSquare (digraphs Encrypt square t) = true
  /\ paired (digraphs Encrypt square t) = true
  /\ digraphs Decrypt square (digraphs Encrypt square t) = t.
Proof.
  induction t as [|a|a b t IH] using pair_ind; intros Hin Hp.
  - repeat split.
  - discriminate.
  - cbn [forallb paired] in Hin, Hp.
    apply andb_true_iff in Hin as [Ha Hin].
    apply andb_true_iff in Hin as [Hb Hin].
    apply andb_true_iff in Hp as [Hne Hp].
    apply negb_true_iff, Ascii.eqb_neq in Hne.
    destruct (IH Hin Hp) as (IH1 & IH2 & IH3).
    pose proof (digraph_round_trip a b Ha Hb Hne) as H.
    cbn [digraphs].
    destruct (digraph Encrypt square a b) as [a' b'].
    destruct H as (H1 & H2 & H3 & H4).
    cbn [forallb paired digraphs]. rewrite H1, H2, IH1, IH2, H4, IH3.
    apply Ascii.eqb_neq in H3. rewrite H3. repeat split.
Qed.

End Square.

(** ** The canonical text *)

Lemma breakDoubles_cons2 (fill : ascii -> ascii) (a b : ascii) (t : text) :
  breakDoubles fill (a :: b :: t)
  = if Ascii.eqb a b then a :: fill a :: breakDoubles fill (b :: t)
    else a :: b :: breakDoubles fill t.
Proof. reflexivity. Qed.

Lemma paired_even (t : text) : paired t = true -> Nat.odd (List.length t) = false.
Proof.
  induction t as [|a|a b t IH] using pair_ind; intros H.
  - reflexivity.
  - discriminate.
  - cbn [paired] in H. apply andb_true_iff in H as [_ H].
    cbn [List.length]. rewrite Nat.odd_succ_succ. auto.
Qed.

Lemma breakDoubles_paired (fill : ascii -> ascii) (t : text) :
  paired t = true -> breakDoubles fill t = t.
Proof.
  induction t as [|a|a b t IH] using pair_ind; intros H.
  - reflexivity.
  - discriminate.
  - cbn [paired] in H. apply andb_true_iff in H as [Hne H].
    apply negb_true_iff in Hne. rewrite breakDoubles_cons2, Hne.
    now rewrite IH.
Qed.

Lemma mergeJ_id (t : text) : forallb inSquare t = true -> map mergeJ t = t.
Proof.
  induction t as [|c t IH]; simpl; [reflexivity|].
  intros H. apply andb_true_iff in H as [Hc H].
  now rewrite mergeJ_inSquare, IH.
Qed.

(** A text of whole, undoubled digraphs over the letters of the square
    is its own canonical form: so is every ciphertext. *)
Lemma canonical_fixed (fill : ascii -> ascii) (t : text) :
  forallb inSquare t = true -> paired t = true -> canonicalWith fill t = t.
Proof.
  intros Hin Hp. unfold canonicalWith.
  rewrite mergeJ_id by assumption.
  rewrite breakDoubles_paired by assumption.
  unfold padOdd. now rewrite paired_even.
Qed.

Lemma breakDoubles_inSquare (fill : ascii -> ascii) :
  (forall a, inSquare (fill a) = true) ->
  forall (n : nat) (t : text),
    (List.length t <= n)%nat -> forallb inSquare t = true ->
    forallb inSquare (breakDoubles fill t) = true.
Proof.
  intros Hfill. induction n as [|n IH]; intros t Hn Hin.
  - destruct t; [reflexivity | simpl in Hn; lia].
  - destruct t as [|a [|b t]]; try assumption.
    rewrite breakDoubles_cons2.
    change (inSquare a && forallb inSquare (b :: t) = true) in Hin.
    apply andb_true_iff in Hin as [Ha Hin].
    pose proof Hin as Hin'.
    change (inSquare b && forallb inSquare t = true) in Hin'.
    apply andb_true_iff in Hin' as [Hb Hin'].
    cbn [List.length] in Hn.
    destruct (Ascii.eqb a b).
    + change (inSquare a && (inSquare (fill a)
                && forallb inSquare (breakDoubles fill (b :: t))) = true).
      rewrite Ha, Hfill. apply IH; [cbn [List.length]; lia | assumption].
    + change (inSquare a && (inSquare b
                && forallb inSquare (breakDoubles fill t)) = true).
      rewrite Ha, Hb. apply IH; [lia | assumption].
Qed.

Lemma filler_inSquare (a : ascii) : inSquare (filler a) = true.
Proof. unfold filler. destruct (Ascii.eqb a "X"); reflexivity. Qed.

Lemma filler_differs (a : ascii) : Ascii.eqb a (filler a) = false.
Proof.
  unfold filler. destruct (Ascii.eqb a "X") eqn:E.
  - apply Ascii.eqb_eq in E. now subst.
  - assumption.
Qed.

Lemma canonical_inSquare (t : text) :
  forallb isUpper t = true -> forallb inSquare (canonical t) = true.
Proof.
  intros H. unfold canonical, canonicalWith.
  assert (forallb inSquare (breakDoubles filler (map mergeJ t)) = true) as Hbd.
  { apply (breakDoubles_inSquare filler filler_inSquare _ _ (le_n _)).
    rewrite forallb_forall in *. intros c Hc.
    apply in_map_iff in Hc as (x & <- & Hx). apply inSquare_mergeJ. now apply H. }
  unfold padOdd. destruct (Nat.odd _); [|assumption].
  rewrite forallb_app, Hbd. unfold padFiller.
  now destruct (Ascii.eqb _ _).
Qed.

Lemma breakDoubles_pairedUpTo :
  forall (n : nat) (t : text),
    (List.length t <= n)%nat -> pairedUpTo (breakDoubles filler t) = true.
Proof.
  induction n as [|n IH]; intros t Hn.
  - destruct t; [reflexivity | simpl in Hn; lia].
  - destruct t as [|a [|b t]]; try reflexivity.
    rewrite breakDoubles_cons2. cbn [List.length] in Hn.
    destruct (Ascii.eqb a b) eqn:E.
    + change (negb (Ascii.eqb a (filler a))
              && pairedUpTo (breakDoubles filler (b :: t)) = true).
      rewrite filler_differs. apply IH. cbn [List.length]. lia.
    + change (negb (Ascii.eqb a b) && pairedUpTo (breakDoubles filler t) = true).
      rewrite E. apply IH. lia.
Qed.

Lemma padFiller_differs (a : ascii) : Ascii.eqb a (padFiller a) = false.
Proof.
  unfold padFiller. destruct (Ascii.eqb a "Z") eqn:E.
  - apply Ascii.eqb_eq in E. now subst.
  - assumption.
Qed.

(** Padding never leaves a doubled digraph. *)
Lemma paired_padOdd (t : text) :
  pairedUpTo t = true -> paired (padOdd t) = true.
Proof.
  induction t as [|a|a b t IH] using pair_ind; intros H.
  - reflexivity.
  - unfold padOdd. cbn. now rewrite padFiller_differs.
  - cbn [pairedUpTo] in H. apply andb_true_iff in H as [Hne H].
    specialize (IH H).
    unfold padOdd in *. cbn [List.length]. rewrite Nat.odd_succ_succ.
    destruct (Nat.odd (List.length t)) eqn:Eodd.
    + destruct t as [|c t]; [discriminate|].
      change (last (a :: b :: c :: t) "A"%char) with (last (c :: t) "A"%char).
      change ((a :: b :: c :: t) ++ [padFiller (last (c :: t) "A"%char)])
        with (a :: b :: ((c :: t) ++ [padFiller (last (c :: t) "A"%char)])).
      cbn [paired]. rewrite Hne, IH. reflexivity.
    + cbn [paired]. rewrite Hne, IH. reflexivity.
Qed.

Lemma canonical_paired (t : text) : paired (canonical t) = true.
Proof.
  unfold canonical, canonicalWith.
  apply paired_padOdd, (breakDoubles_pairedUpTo _ _ (le_n _)).
Qed.

(** The round trip of the digraph cipher on a given square. *)
Lemma playfair_round_trip (keyword t : text) :
  forallb isUpper keyword = true -> forallb isUpper t = true ->
  playfairApply (playfairSquare keyword)
    (playfairApply (playfairSquare keyword) t Encrypt) Decrypt
  = canonical t.
Proof.
  intros Hkey Ht. pose proof (canonical_paired t) as Hp.
  destruct (digraphs_round_trip (playfairSquare keyword)
              (playfairSquare_NoDup keyword)
              (playfairSquare_length keyword Hkey)
              (fun c => playfairSquare_In keyword c Hkey)
              (canonical t) (canonical_inSquare t Ht) Hp) as (H1 & H2 & H3).
  unfold playfairApply, playfairApplyWith at 1.
  fold canonical. fold (playfairApply (playfairSquare keyword) t Encrypt).
  unfold playfairApply at 1, playfairApplyWith at 1.
  change (canonicalWith filler t) with (canonical t).
  rewrite (canonical_fixed filler) by assumption.
  exact H3.
Qed.

(** ** Keys *)

Lemma keywordKey_Some (rawKey key : text) :
  keywordKey rawKey = Some key ->
  rawKey <> [] /\ forallb isAlpha rawKey = true /\ key = map toUpper rawKey
  /\ key <> [] /\ forallb isUpper key = true
  /\ List.length key = List.length rawKey.
Proof.
  unfold keywordKey. destruct rawKey as [|c r]; [discriminate|].
  destruct (forallb isAlpha (c :: r)) eqn:E; [|discriminate].
  intros H. injection H as <-.
  repeat split; try discriminate;
    try (simpl; f_equal; apply length_map).
  rewrite forallb_forall in *. intros x Hx.
  change (In x (map toUpper (c :: r))) in Hx.
  apply in_map_iff in Hx as (y & <- & Hy). apply toUpper_alpha. now apply E.
Qed.

Lemma caesarKey_Some (rawKey : text) (key : Z) :
  caesarKey rawKey = Some key ->
  rawKey <> [] /\ forallb isDigit rawKey = true
  /\ key = parseDecimal rawKey mod 26 /\ 0 <= key <= 25.
Proof.
  unfold caesarKey. destruct rawKey as [|c r]; [discriminate|].
  destruct (forallb isDigit (c :: r)) eqn:E; [|discriminate].
  intros H. injection H as <-.
  pose proof (Z.mod_pos_bound (parseDecimal (c :: r)) 26 ltac:(lia)).
  repeat split; try discriminate; lia.
Qed.

Lemma factory_valid (type : CipherType) (rawKey : text) (cipher : Cipher) :
  cipherFactory type rawKey = Returns cipher -> validCipher cipher.
Proof.
  unfold cipherFactory. destruct type.
  - destruct (caesarKey rawKey) as [k|] eqn:E; [|discriminate].
    intros H. injection H as <-. simpl.
    now destruct (caesarKey_Some _ _ E) as (_ & _ & _ & H).
  - destruct (keywordKey rawKey) as [k|] eqn:E; [|discriminate].
    intros H. injection H as <-. simpl.
    destruct (keywordKey_Some _ _ E) as (_ & _ & _ & H1 & H2 & _).
    exists k. repeat split; assumption.
  - destruct (keywordKey rawKey) as [k|] eqn:E; [|discriminate].
    intros H. injection H as <-. simpl.
    destruct (keywordKey_Some _ _ E) as (_ & _ & _ & H1 & H2 & _).
    split; assumption.
Qed.

Lemma forallb_false_witness {A} (p : A -> bool) (l : list A) :
  forallb p l = false <-> exists x, In x l /\ p x = false.
Proof.
  induction l as [|a l IH]; simpl.
  - split; [discriminate | intros (x & [] & _)].
  - rewrite andb_false_iff, IH. split.
    + intros [H|(x & Hx & Hp)]; [exists a; auto | exists x; auto].
    + intros (x & [->|Hx] & Hp); [left; assumption | right; exists x; auto].
Qed.

(** ** The chunks of the Vigenere branch *)

Lemma vigenereChunks_aligned (n : Z) (cipherKey inputText : text) :
  1 <= n < SizeT.modulus -> cipherKey <> [] ->
  len inputText + (len inputText + len cipherKey) < SizeT.modulus ->
  exists acts,
    vigenereChunks n cipherKey inputText = Done acts
    /\ (List.length (submitted acts) <= Z.to_nat n)%nat
    /\ concat (submitted acts) = inputText
    /\ Forall (fun o => o mod List.length cipherKey = 0)%nat
              (offsets 0 (submitted acts))
    /\ forall i, (S i < List.length (submitted acts))%nat ->
         (List.length (nth i (submitted acts) []) mod List.length cipherKey = 0)%nat.
Proof.
  intros Hn Hkey Hlen.
  destruct (vigenereChunks_spec n cipherKey inputText Hn Hkey Hlen)
    as (acts & Hrun & Hcount & Hcat & Hnth).
  set (q := len inputText / len cipherKey / n + 1) in *.
  set (cl := Z.to_nat (q * len cipherKey)) in *.
  assert (1 <= len cipherKey) as Hk
    by (destruct cipherKey; [congruence | unfold len; simpl; lia]).
  assert (0 <= len inputText / len cipherKey / n) as Hq
    by (apply Z.div_pos; [apply Z.div_pos; [apply len_nonneg|]|]; lia).
  assert (cl = Z.to_nat q * List.length cipherKey)%nat as Hcl
    by (unfold cl, len; rewrite Z2Nat.inj_mul by lia; now rewrite Nat2Z.id).
  assert (forall i, (S i < List.length (submitted acts))%nat ->
                    List.length (nth i (submitted acts) []) = cl) as Hfull.
  { intros i Hi.
    destruct (Hnth i ltac:(lia)) as [-> _].
    destruct (Hnth (S i) Hi) as [_ Hle].
    apply firstn_skipn_length. unfold cl, len in *. nia. }
  exists acts. repeat split; try assumption.
  - apply Forall_nth. intros i o Hi.
    rewrite offsets_length in Hi.
    rewrite (nth_indep _ o 0%nat) by now rewrite offsets_length.
    rewrite (offsets_regular cl _ _ Hfull i Hi), Hcl. simpl.
    rewrite Nat.mul_assoc. apply Nat.Div0.mod_mul.
  - intros i Hi. rewrite (Hfull i Hi), Hcl. apply Nat.Div0.mod_mul.
Qed.

(** * The claims *)

(** C7. In both drivers the chunks cut for the Caesar cipher are twelve
    consecutive pieces of the input: concatenated in order they give the
    input back, chunk [i] has [length / 12] characters and one more when
    [i < length mod 12], so that two chunks differ by at most one
    character and the longer ones come first. *)
Theorem caesar_chunks_partition (d : driver) (settings : ProgramSettings)
    (inputText : text) :
  cipherType settings = Caesar ->
  len inputText < SizeT.modulus ->
  exists chunks,
    dispatch d threadNum settings inputText = Done (Threaded (map Async chunks))
    /\ List.length chunks = 12%nat
    /\ concat chunks = inputText
    /\ (forall i, (i < 12)%nat ->
          len (nth i chunks []) =
          len inputText / 12 + (if Z.of_nat i <? len inputText mod 12 then 1 else 0))
    /\ (forall i j, (i < 12)%nat -> (j < 12)%nat ->
          Z.abs (len (nth i chunks []) - len (nth j chunks [])) <= 1).
Proof.
  intros Htype Hlen.
  destruct (uniformChunks_spec threadNum inputText ltac:(unfold threadNum; lia) Hlen)
    as (cs & Hrun & Hcount & Hcat & Hlens).
  change (Z.to_nat threadNum) with 12%nat in *. unfold threadNum in Hlens.
  exists cs.
  split.
  { unfold dispatch. rewrite Htype. destruct d; now rewrite Hrun. }
  repeat split; try assumption.
  intros i j Hi Hj. rewrite (Hlens i Hi), (Hlens j Hj).
  destruct (Z.of_nat i <? _), (Z.of_nat j <? _); lia.
Qed.

Lemma caesar_chunks_partition_witness :
  cipherType (settingsFor Caesar "10" Encrypt) = Caesar
  /\ len (lit "HELLOWORLDHELLO") < SizeT.modulus
  /\ exists chunks,
       dispatch Older threadNum (settingsFor Caesar "10" Encrypt) (lit "HELLOWORLDHELLO")
       = Done (Threaded (map Async chunks))
       /\ List.length chunks = 12%nat
       /\ concat chunks = lit "HELLOWORLDHELLO"
       /\ (forall i, (i < 12)%nat ->
             len (nth i chunks []) =
             len (lit "HELLOWORLDHELLO") / 12
             + (if Z.of_nat i <? len (lit "HELLOWORLDHELLO") mod 12 then 1 else 0))
       /\ (forall i j, (i < 12)%nat -> (j < 12)%nat ->
             Z.abs (len (nth i chunks []) - len (nth j chunks [])) <= 1).
Proof.
  split; [reflexivity|]. split; [vm_compute; reflexivity|].
  apply (caesar_chunks_partition Older (settingsFor Caesar "10" Encrypt)
           (lit "HELLOWORLDHELLO")); [reflexivity | vm_compute; reflexivity].
Defined.

(** The chunks of the example, as the loop cuts them. *)
Example caesar_chunks_example :
  dispatch Newer threadNum (settingsFor Caesar "10" Encrypt) (lit "HELLOWORLDHELLO")
  = Done (Threaded (map Async
      [lit "HE"; lit "LL"; lit "OW"; lit "O"; lit "R"; lit "L"; lit "D";
       lit "H"; lit "E"; lit "L"; lit "L"; lit "O"])).
Proof. vm_compute. reflexivity. Qed.

(** C10. In the Vigenere branch of the newer driver, a key that is not
    empty makes the division by its length defined, the handler of
    [std::out_of_range] keeps every exception of [substr] inside the
    loop, and the loop submits at most twelve chunks; no bound on the
    sizes is needed for that. *)
Theorem vigenere_branch_safe (settings : ProgramSettings) (inputText : text) :
  cipherType settings = Vigenere ->
  cipherKey settings <> [] ->
  SizeT.div (len inputText) (len (cipherKey settings))
    = Some (len inputText / len (cipherKey settings))
  /\ exists acts,
       dispatch Newer threadNum settings inputText = Done (Threaded acts)
       /\ (List.length (submitted acts) <= 12)%nat.
Proof.
  intros Htype Hkey.
  assert ((len (cipherKey settings) =? 0) = false) as Hk.
  { apply Z.eqb_neq. destruct (cipherKey settings); [congruence | unfold len; simpl; lia]. }
  split; [unfold SizeT.div; now rewrite Hk|].
  unfold dispatch. rewrite Htype. unfold vigenereChunks, SizeT.div. rewrite Hk.
  change (threadNum =? 0) with false. cbv iota.
  match goal with
  | |- context [vigenereLoop ?n ?t ?c ?i ?f] =>
      destruct (vigenereLoop_total t c n i f) as (acts & Hrun & Hle)
  end.
  exists acts. rewrite Hrun. split; [reflexivity | exact Hle].
Qed.

Lemma vigenere_branch_safe_witness :
  cipherType (settingsFor Vigenere "hello" Encrypt) = Vigenere
  /\ cipherKey (settingsFor Vigenere "hello" Encrypt) <> []
  /\ SizeT.div (len (lit "THISISQUITEALONGMESSAGE"))
               (len (cipherKey (settingsFor Vigenere "hello" Encrypt)))
     = Some (len (lit "THISISQUITEALONGMESSAGE")
             / len (cipherKey (settingsFor Vigenere "hello" Encrypt)))
  /\ exists acts,
       dispatch Newer threadNum (settingsFor Vigenere "hello" Encrypt)
         (lit "THISISQUITEALONGMESSAGE") = Done (Threaded acts)
       /\ (List.length (submitted acts) <= 12)%nat.
Proof.
  split; [reflexivity|]. split; [discriminate|].
  apply (vigenere_branch_safe (settingsFor Vigenere "hello" Encrypt)
           (lit "THISISQUITEALONGMESSAGE")); [reflexivity | discriminate].
Defined.

(** The handler at work: 23 characters with a key of five are cut in
    chunks of five, and the sixth [substr] throws and ends the loop. *)
Example vigenere_chunks_example :
  option_map submitted
    (match dispatch Newer threadNum (settingsFor Vigenere "hello" Encrypt)
             (lit "THISISQUITEALONGMESSAGE") with
     | Done (Threaded acts) => Some acts
     | _ => None
     end)
  = Some [lit "THISI"; lit "SQUIT"; lit "EALON"; lit "GMESS"; lit "AGE"].
Proof. vm_compute. reflexivity. Qed.

(** Without a key the chunk length is a division by zero. *)
Example vigenere_empty_key_undefined (inputText : text) :
  dispatch Newer threadNum (settingsFor Vigenere "" Encrypt) inputText = Undefined.
Proof. reflexivity. Qed.

(** The factory lets no empty key reach the Vigenere branch. *)
Lemma vigenere_key_not_empty (rawKey : text) (cipher : Cipher) :
  cipherFactory Vigenere rawKey = Returns cipher -> rawKey <> [].
Proof.
  unfold cipherFactory. destruct (keywordKey rawKey) as [k|] eqn:E; [|discriminate].
  intros _. now destruct (keywordKey_Some _ _ E) as (H & _).
Qed.

(** ** What the newer driver does for the Vigenere and Playfair ciphers *)

(** In the newer driver every Vigenere chunk starts at a multiple of
    the key length, every chunk but the last has a multiple of the key
    length as its length, and the chunks give the text back. *)
Lemma newer_vigenere_chunks_aligned (n : Z) (settings : ProgramSettings)
    (inputText : text) :
  cipherType settings = Vigenere -> cipherKey settings <> [] ->
  1 <= n < SizeT.modulus ->
  len inputText + (len inputText + len (cipherKey settings)) < SizeT.modulus ->
  exists acts,
    dispatch Newer n settings inputText = Done (Threaded acts)
    /\ concat (submitted acts) = inputText
    /\ Forall (fun o => o mod List.length (cipherKey settings) = 0)%nat
              (offsets 0 (submitted acts))
    /\ forall i, (S i < List.length (submitted acts))%nat ->
         (List.length (nth i (submitted acts) []) mod List.length (cipherKey settings) = 0)%nat.
Proof.
  intros Htype Hkey Hn Hlen.
  destruct (vigenereChunks_aligned n (cipherKey settings) inputText Hn Hkey Hlen)
    as (acts & Hrun & _ & Hcat & Hoff & Hlens).
  exists acts. unfold dispatch. rewrite Htype, Hrun.
  repeat split; assumption.
Qed.

(** X6. In the newer driver the Playfair cipher gets the whole text in
    one call on the main thread: no future is ever created, and a run
    holds at most one call of [applyCipher], of the whole text. *)
Lemma newer_playfair_whole_text (n : Z) (settings : ProgramSettings)
    (cipher : Cipher) (inputText : text) :
  cipherType settings = Playfair ->
  dispatch Newer n settings inputText = Done (Synchronous inputText)
  /\ forall s,
       steps Newer (doCipher cipher settings) (start (Synchronous inputText)) s ->
       futures s = []
       /\ (forall e, In e (trace s) ->
             e = Applied MainThread inputText
             \/ e = Wrote (applyCipher cipher inputText (cipherMode settings))
             \/ e = OpenFailed)
       /\ (List.length (appliers (trace s)) <= 1)%nat
       /\ (forall c, at_ s = Returned c ->
             appliers (trace s) = [MainThread]).
Proof.
  intros Htype. split; [unfold dispatch; now rewrite Htype|].
  intros s Hs.
  destruct (synchronous_states _ _ _ _ Hs) as [-> | [-> | [-> | ->]]];
    cbn [futures trace at_ appliers flat_map app List.length];
    (split; [reflexivity|]); (split; [|split; [lia|]]);
    try (intros c Hc; first [discriminate Hc | reflexivity]);
    intros e He; simpl in He; unfold doCipher in He; intuition.
Qed.

(** ** Runs that end *)

Lemma returned_facts (d : driver) (f : text -> text) (acts : list action) (s : state) :
  steps d f (start (Threaded acts)) s -> at_ s = Returned 0 ->
  In (Wrote (reassemble f (submitted acts))) (trace s)
  /\ gots (trace s) = seq 0 (List.length (submitted acts))
  /\ forallb isReady (futures s) = true
  /\ List.length (futures s) = List.length (submitted acts).
Proof.
  intros Hsteps Hret.
  pose proof (steps_keep_Inv d f _ _ _ (Inv_start f acts) Hsteps) as (_ & _ & _ & Hpc).
  rewrite Hret in Hpc. destruct Hpc as ((H1 & H2 & H3 & H4 & H5) & Hw).
  pose proof (Forall2_length H1) as Hlen.
  rewrite <- Hlen, firstn_all in H3. rewrite firstn_all in H4.
  repeat split; try assumption.
  apply In_wrotes. rewrite Hw. simpl. left.
  now rewrite reassemble_concat.
Qed.

Lemma run_extends (d : driver) (f : text -> text) (acts : list action) (s : state) :
  steps d f (start (Threaded acts)) s -> (forall c, at_ s <> Returned c) ->
  exists s', steps d f s s' /\ at_ s' = Returned 0
             /\ In (Wrote (reassemble f (submitted acts))) (trace s')
             /\ gots (trace s') = seq 0 (List.length (submitted acts)).
Proof.
  intros Hsteps Hnot.
  pose proof (steps_keep_Inv d f _ _ _ (Inv_start f acts) Hsteps) as HI.
  destruct (run_completes d f (submitted acts) (S (measure s)) s ltac:(lia) HI Hnot)
    as (s' & Hmore & Hret).
  exists s'. split; [assumption|]. split; [assumption|].
  destruct (returned_facts d f acts s' (steps_append _ _ _ _ _ Hsteps Hmore) Hret)
    as (H1 & H2 & _).
  split; assumption.
Qed.

(** Any cut of a text in consecutive chunks, for the shift cipher, and
    any cut at multiples of the key length, for the polyalphabetic
    cipher, gives the unsplit output when the chunks are enciphered one
    by one and the results appended in order. *)
Lemma policy_chunks_equal_unsplit (settings : ProgramSettings) (cipher : Cipher)
    (chunks : list text) :
  cipherType settings <> Playfair ->
  cipherFactory (cipherType settings) (cipherKey settings) = Returns cipher ->
  (cipherType settings = Vigenere ->
   Forall (fun o => o mod List.length (cipherKey settings) = 0)%nat (offsets 0 chunks)) ->
  reassemble (doCipher cipher settings) chunks
  = applyCipher cipher (concat chunks) (cipherMode settings).
Proof.
  intros Htype Hfactory Haligned.
  rewrite reassemble_concat. unfold doCipher, cipherFactory in *.
  destruct (cipherType settings); [| congruence |].
  - destruct (caesarKey (cipherKey settings)) as [k|]; [|discriminate].
    injection Hfactory as <-. apply caesarApply_concat.
  - destruct (keywordKey (cipherKey settings)) as [k|] eqn:Ek; [|discriminate].
    injection Hfactory as <-.
    destruct (keywordKey_Some _ _ Ek) as (_ & _ & _ & _ & _ & Hklen).
    specialize (Haligned eq_refl). rewrite <- Hklen in Haligned.
    apply (vigenere_aligned_chunks k (cipherMode settings) chunks 0%nat Haligned).
Qed.

(** C1. For the Caesar cipher (in either driver) and for the Vigenere
    cipher (in the newer driver, which cuts at multiples of the key
    length), with any number of threads from one on and any key the
    factory accepts: the chunks give the text back, enciphering them one
    by one and appending the results in submission order is the same as
    enciphering the whole text, every run that writes writes exactly
    that, and a run that writes exists. The same holds of any cut of the
    text that follows the policy, in however many chunks: any
    consecutive chunks for the shift cipher, chunks that start at
    multiples of the key length for the polyalphabetic cipher. *)
Theorem chunked_equals_unsplit (d : driver) (n : Z) (settings : ProgramSettings)
    (cipher : Cipher) (inputText : text) :
  1 <= n < SizeT.modulus ->
  cipherType settings = Caesar \/ (d = Newer /\ cipherType settings = Vigenere) ->
  cipherFactory (cipherType settings) (cipherKey settings) = Returns cipher ->
  len inputText + (len inputText + len (cipherKey settings)) < SizeT.modulus ->
  (exists acts,
    dispatch d n settings inputText = Done (Threaded acts)
    /\ concat (submitted acts) = inputText
    /\ reassemble (doCipher cipher settings) (submitted acts)
       = applyCipher cipher inputText (cipherMode settings)
    /\ (forall s out,
          steps d (doCipher cipher settings) (start (Threaded acts)) s ->
          In (Wrote out) (trace s) ->
          out = applyCipher cipher inputText (cipherMode settings))
    /\ exists s,
         steps d (doCipher cipher settings) (start (Threaded acts)) s
         /\ In (Wrote (applyCipher cipher inputText (cipherMode settings))) (trace s))
  /\ (forall chunks,
        concat chunks = inputText ->
        (cipherType settings = Vigenere ->
         Forall (fun o => o mod List.length (cipherKey settings) = 0)%nat
                (offsets 0 chunks)) ->
        reassemble (doCipher cipher settings) chunks
        = applyCipher cipher inputText (cipherMode settings)).
Proof.
  intros Hn Hpolicy Hfactory Hlen.
  split.
  2:{ intros chunks Hcat Haligned. rewrite <- Hcat.
      apply policy_chunks_equal_unsplit; try assumption.
      destruct Hpolicy as [E | [_ E]]; rewrite E; discriminate. }
  assert (exists acts,
            dispatch d n settings inputText = Done (Threaded acts)
            /\ concat (submitted acts) = inputText
            /\ reassemble (doCipher cipher settings) (submitted acts)
               = applyCipher cipher inputText (cipherMode settings))
    as (acts & Hrun & Hcat & Hout).
  { pose proof (len_nonneg inputText) as H0.
    pose proof (len_nonneg (cipherKey settings)) as H1.
    destruct Hpolicy as [Htype | [-> Htype]].
    - (* Caesar: any cut will do *)
      rewrite Htype in Hfactory. unfold cipherFactory in Hfactory.
      destruct (caesarKey (cipherKey settings)) as [k|]; [|discriminate].
      injection Hfactory as <-.
      destruct (uniformChunks_spec n inputText ltac:(lia) ltac:(lia))
        as (cs & Hrun & _ & Hcat & _).
      exists (map Async cs). rewrite submitted_asyncs.
      split; [unfold dispatch; rewrite Htype; destruct d; now rewrite Hrun|].
      split; [assumption|].
      rewrite reassemble_concat. unfold doCipher, applyCipher.
      now rewrite caesarApply_concat, Hcat.
    - (* Vigenere: the cuts are at multiples of the key length *)
      rewrite Htype in Hfactory.
      pose proof (vigenere_key_not_empty _ _ Hfactory) as Hkey.
      unfold cipherFactory in Hfactory.
      destruct (keywordKey (cipherKey settings)) as [k|] eqn:Ek; [|discriminate].
      injection Hfactory as <-.
      destruct (keywordKey_Some _ _ Ek) as (_ & _ & _ & _ & _ & Hklen).
      destruct (newer_vigenere_chunks_aligned n settings inputText Htype Hkey Hn Hlen)
        as (acts & Hrun & Hcat & Hoff & _).
      exists acts. split; [assumption|]. split; [assumption|].
      rewrite reassemble_concat. unfold doCipher, applyCipher.
      rewrite <- Hklen in Hoff.
      rewrite (vigenere_aligned_chunks k (cipherMode settings) _ 0%nat Hoff).
      now rewrite Hcat. }
  exists acts. split; [assumption|]. split; [assumption|]. split; [assumption|].
  split.
  - intros s out Hsteps Hin.
    rewrite (run_writes_planOutput d _ (Threaded acts) s out Hsteps Hin).
    exact Hout.
  - destruct (run_extends d (doCipher cipher settings) acts (start (Threaded acts))
                (steps_refl _ _ _) ltac:(intros c; discriminate))
      as (s & Hsteps & _ & Hw & _).
    exists s. split; [assumption|]. now rewrite <- Hout.
Qed.

Lemma chunked_equals_unsplit_witness :
  1 <= threadNum < SizeT.modulus
  /\ (cipherType (settingsFor Vigenere "hello" Encrypt) = Caesar
      \/ (Newer = Newer /\ cipherType (settingsFor Vigenere "hello" Encrypt) = Vigenere))
  /\ cipherFactory Vigenere (lit "hello") = Returns (VigenereCipher (lit "HELLO"))
  /\ len (lit "THISISQUITEALONGMESSAGE")
     + (len (lit "THISISQUITEALONGMESSAGE") + len (lit "hello")) < SizeT.modulus
  /\ exists acts,
       dispatch Newer threadNum (settingsFor Vigenere "hello" Encrypt)
         (lit "THISISQUITEALONGMESSAGE") = Done (Threaded acts)
       /\ concat (submitted acts) = lit "THISISQUITEALONGMESSAGE"
       /\ reassemble (doCipher (VigenereCipher (lit "HELLO"))
                        (settingsFor Vigenere "hello" Encrypt)) (submitted acts)
          = applyCipher (VigenereCipher (lit "HELLO")) (lit "THISISQUITEALONGMESSAGE") Encrypt
       /\ (forall s out,
             steps Newer (doCipher (VigenereCipher (lit "HELLO"))
                            (settingsFor Vigenere "hello" Encrypt))
               (start (Threaded acts)) s ->
             In (Wrote out) (trace s) ->
             out = applyCipher (VigenereCipher (lit "HELLO"))
                     (lit "THISISQUITEALONGMESSAGE") Encrypt)
       /\ exists s,
            steps Newer (doCipher (VigenereCipher (lit "HELLO"))
                           (settingsFor Vigenere "hello" Encrypt))
              (start (Threaded acts)) s
            /\ In (Wrote (applyCipher (VigenereCipher (lit "HELLO"))
                            (lit "THISISQUITEALONGMESSAGE") Encrypt)) (trace s).
Proof.
  split; [unfold threadNum, SizeT.modulus; lia|].
  split; [right; split; reflexivity|].
  split; [reflexivity|].
  split; [vm_compute; reflexivity|].
  apply (chunked_equals_unsplit Newer threadNum (settingsFor Vigenere "hello" Encrypt)
           (VigenereCipher (lit "HELLO")) (lit "THISISQUITEALONGMESSAGE")).
  - unfold threadNum, SizeT.modulus; lia.
  - right; split; reflexivity.
  - reflexivity.
  - vm_compute; reflexivity.
Defined.

(** ** Collecting the futures *)

Lemma wrote_returned (d : driver) (f : text -> text) (acts : list action) (s : state)
    (out : text) :
  steps d f (start (Threaded acts)) s -> In (Wrote out) (trace s) ->
  at_ s = Returned 0.
Proof.
  intros Hsteps Hin. apply In_wrotes in Hin.
  pose proof (steps_keep_Inv d f _ _ _ (Inv_start f acts) Hsteps) as (_ & _ & _ & Hpc).
  destruct (at_ s) as [t|todo| |i|i| |c]; try contradiction.
  - destruct Hpc as (done & _ & _ & _ & _ & Hw). rewrite Hw in Hin. contradiction.
  - destruct Hpc as (_ & _ & Hw). rewrite Hw in Hin. contradiction.
  - destruct Hpc as (_ & Hw). rewrite Hw in Hin. contradiction.
  - destruct Hpc as (_ & Hw). rewrite Hw in Hin. contradiction.
  - destruct Hpc as (_ & Hw). rewrite Hw in Hin.
    destruct (c =? 0) eqn:E; [|contradiction].
    apply Z.eqb_eq in E. now subst.
Qed.

Lemma sample_run :
  steps Newer sampleCipher (start (Threaded sampleActs)) sampleEnd.
Proof.
  unfold sampleActs, sampleEnd, start.
  eapply steps_first; [apply step_async|].
  eapply steps_first; [apply step_async|].
  eapply steps_first; [apply step_chunked|].
  eapply steps_first; [apply (step_worker Newer sampleCipher _ _ _ _ _ 1%nat (lit "CD")); reflexivity|].
  eapply steps_first; [apply (step_worker Newer sampleCipher _ _ _ _ _ 0%nat (lit "AB")); reflexivity|].
  eapply steps_first; [apply step_poll_leave; discriminate|].
  eapply steps_first; [apply (step_get Newer sampleCipher 0%nat (lit "BC")); reflexivity|].
  eapply steps_first; [apply (step_get Newer sampleCipher 1%nat (lit "DE")); reflexivity|].
  eapply steps_first; [apply step_collected; simpl; lia|].
  eapply steps_first; [apply step_write|].
  apply steps_refl.
Defined.

(** C8. In every run that works through futures, whatever the order in
    which the workers end: what is written is the results of the chunks
    appended in submission order; once it is written, every [get()] has
    returned, in the order of the indices, and every future holds its
    result; the step that writes starts from such a state; every step
    brings the end nearer, and a run that has not returned can be
    carried on until the output is written. *)
Theorem reassembly_in_submission_order (d : driver) (f : text -> text)
    (acts : list action) (s : state) :
  steps d f (start (Threaded acts)) s ->
  (forall out, In (Wrote out) (trace s) ->
     out = concat (map f (submitted acts))
     /\ gots (trace s) = seq 0 (List.length (submitted acts))
     /\ forallb isReady (futures s) = true
     /\ List.length (futures s) = List.length (submitted acts))
  /\ (forall s' out, step d f s s' ->
        In (Wrote out) (trace s') -> ~ In (Wrote out) (trace s) ->
        gots (trace s) = seq 0 (List.length (submitted acts))
        /\ forallb isReady (futures s) = true
        /\ List.length (futures s) = List.length (submitted acts))
  /\ (forall s', step d f s s' -> (measure s' < measure s)%nat)
  /\ ((forall c, at_ s <> Returned c) ->
      exists s', steps d f s s'
                 /\ In (Wrote (concat (map f (submitted acts)))) (trace s')).
Proof.
  intros Hsteps.
  pose proof (steps_keep_Inv d f _ _ _ (Inv_start f acts) Hsteps) as HI.
  split; [|split; [|split]].
  - intros out Hin.
    pose proof (wrote_returned d f acts s out Hsteps Hin) as Hret.
    destruct (returned_facts d f acts s Hsteps Hret) as (_ & H2 & H3 & H4).
    split; [|repeat split; assumption].
    rewrite <- reassemble_concat.
    apply (run_writes_planOutput d f (Threaded acts) s out Hsteps Hin).
  - intros s' out Hstep Hin Hnew.
    destruct HI as (_ & _ & _ & Hpc).
    destruct Hstep; cbn [trace futures at_] in *;
      try (apply in_app_or in Hin as [Hin|Hin]; [contradiction|]);
      try (destruct d; simpl in Hin; intuition discriminate);
      try contradiction.
    destruct Hpc as ((H1 & H2 & H3 & H4 & H5) & Hw).
    cbn [futures trace] in *.
    pose proof (Forall2_length H1) as Hlen.
    rewrite <- Hlen, firstn_all in H3.
    repeat split; assumption.
  - intros s' Hstep. eapply step_decreases; eassumption.
  - intros Hnot.
    destruct (run_extends d f acts s Hsteps Hnot) as (s' & Hmore & _ & Hw & _).
    exists s'. split; [assumption|]. now rewrite <- reassemble_concat.
Qed.

Lemma reassembly_in_submission_order_witness :
  steps Newer sampleCipher (start (Threaded sampleActs)) sampleEnd
  /\ (forall out, In (Wrote out) (trace sampleEnd) ->
        out = concat (map sampleCipher (submitted sampleActs))
        /\ gots (trace sampleEnd) = seq 0 (List.length (submitted sampleActs))
        /\ forallb isReady (futures sampleEnd) = true
        /\ List.length (futures sampleEnd) = List.length (submitted sampleActs)).
Proof.
  split; [exact sample_run|].
  exact (proj1 (reassembly_in_submission_order Newer sampleCipher sampleActs
                  sampleEnd sample_run)).
Defined.

(** The main thread of a run on futures can always move on, except in
    a [get()] on a future whose call is still running. *)
Lemma main_thread_waits_only_in_get (d : driver) (f : text -> text)
    (chunks : list text) (s : state) :
  Inv f chunks s -> (forall c, at_ s <> Returned c) ->
  (exists s', step d f s s' /\ at_ s' <> at_ s)
  \/ (exists i input, at_ s = Collecting i
                      /\ nth_error (futures s) i = Some (Running input)).
Proof.
  intros (_ & _ & _ & Hpc) Hnot.
  destruct s as [p fs flag out tr]. cbn [at_ futures allFuturesReady] in *.
  destruct p as [t|todo| |i|i| |c]; try contradiction.
  - left. destruct todo as [|[item|chunk] todo]; eexists;
      (split; [first [apply step_chunked | apply step_cout | apply step_async]|]);
      cbn [at_]; try discriminate;
      intros E; injection E as E; apply (f_equal (@List.length action)) in E;
      simpl in E; lia.
  - left. destruct Hpc as (_ & Hflag & _). subst flag.
    eexists. split; [apply step_poll_leave; lia | discriminate].
  - destruct (nth_error fs i) as [[input|result]|] eqn:E.
    + right. now exists i, input.
    + left. eexists. split; [eapply step_get; exact E|].
      cbn [at_]. intros E'. injection E' as E'. lia.
    + left. eexists. split; [apply step_collected; now apply nth_error_None
                            | discriminate].
  - left. eexists. split; [apply step_write | discriminate].
  - exfalso. now apply (Hnot c).
Qed.

(** C9. In both drivers the loop that polls the futures never runs its
    body: the flag is 1 (true) whenever its test is evaluated, no
    [wait_for] and no message of the loop ever shows in a trace. On
    futures, the main thread waits nowhere but in a [get()] on a future
    that is still running, and a run that has not returned can be
    carried on until every [get()] has returned, still without
    polling. *)
Theorem polling_loop_never_runs (d : driver) (f : text -> text) (p : plan) (s : state) :
  steps d f (start p) s ->
  polls (trace s) = []
  /\ (forall i, at_ s <> PollBody i)
  /\ (at_ s = PollTest -> allFuturesReady s = 1)
  /\ (forall acts, p = Threaded acts -> (forall c, at_ s <> Returned c) ->
      ((exists s', step d f s s' /\ at_ s' <> at_ s)
       \/ (exists i input, at_ s = Collecting i
                           /\ nth_error (futures s) i = Some (Running input)))
      /\ exists s', steps d f s s' /\ at_ s' = Returned 0
                    /\ gots (trace s') = seq 0 (List.length (submitted acts))
                    /\ polls (trace s') = []).
Proof.
  intros Hsteps. destruct p as [inputText|acts].
  - destruct (synchronous_states d f inputText s Hsteps) as [-> | [-> | [-> | ->]]];
      cbn [trace at_ allFuturesReady]; repeat split;
      try reflexivity; try discriminate.
  - pose proof (steps_keep_Inv d f _ _ _ (Inv_start f acts) Hsteps) as HI.
    pose proof HI as (Hpolls & _ & _ & Hpc).
    split; [assumption|]. split; [|split].
    + intros i E. rewrite E in Hpc. contradiction.
    + intros E. rewrite E in Hpc. now destruct Hpc as (_ & Hflag & _).
    + intros acts' E Hnot. injection E as <-.
      split; [exact (main_thread_waits_only_in_get d f _ s HI Hnot)|].
      destruct (run_extends d f acts s Hsteps Hnot) as (s' & Hmore & Hret & _ & Hgots).
      exists s'. repeat split; try assumption.
      now destruct (steps_keep_Inv d f _ _ _ (Inv_start f acts)
                      (steps_append _ _ _ _ _ Hsteps Hmore)) as (H & _).
Qed.

Lemma polling_loop_never_runs_witness :
  steps Older sampleCipher (start (Threaded sampleActs))
        (St PollTest [Running (lit "AB"); Running (lit "CD")] 1 [] [])
  /\ polls (trace (St PollTest [Running (lit "AB"); Running (lit "CD")] 1 [] [])) = []
  /\ (forall i, at_ (St PollTest [Running (lit "AB"); Running (lit "CD")] 1 [] [])
                <> PollBody i).
Proof.
  assert (steps Older sampleCipher (start (Threaded sampleActs))
            (St PollTest [Running (lit "AB"); Running (lit "CD")] 1 [] [])) as Hrun.
  { unfold sampleActs, start.
    eapply steps_first; [apply step_async|].
    eapply steps_first; [apply step_async|].
    eapply steps_first; [apply step_chunked|].
    apply steps_refl. }
  split; [exact Hrun|].
  pose proof (polling_loop_never_runs Older sampleCipher (Threaded sampleActs) _ Hrun)
    as (H1 & H2 & _).
  split; assumption.
Defined.

(** The loop is there all the same: were the flag 0 at its test, the
    older driver would wait on a running future and print its message. *)
Example polling_loop_with_flag_0 :
  steps Older sampleCipher
    (St PollTest [Running (lit "AB")] 0 [] [])
    (St (PollBody 1) [Running (lit "AB")] 0 []
        [WaitedFor 0 status_timeout; PrintedWaiting]).
Proof.
  eapply steps_first; [apply step_poll_enter|].
  eapply steps_first; [apply (step_wait_timeout Older sampleCipher 0%nat (lit "AB")); reflexivity|].
  apply steps_refl.
Qed.

(** ** The older driver on the two keyword ciphers *)

Lemma returned_appliers (d : driver) (f : text -> text) (acts : list action) (s : state)
    (c : Z) :
  steps d f (start (Threaded acts)) s -> at_ s = Returned c ->
  List.length (appliers (trace s)) = List.length (submitted acts)
  /\ ~ In MainThread (appliers (trace s)).
Proof.
  intros Hsteps Hret.
  pose proof (steps_keep_Inv d f _ _ _ (Inv_start f acts) Hsteps)
    as (_ & Hmain & Hcount & Hpc).
  rewrite Hret in Hpc. destruct Hpc as ((H1 & _ & H3 & _) & _).
  pose proof (Forall2_length H1) as Hlen.
  rewrite <- Hlen, firstn_all in H3.
  split; [|assumption].
  rewrite Hcount, <- Hlen. clear - H3.
  induction (futures s) as [|x fs IH]; simpl in *; [reflexivity|].
  apply andb_true_iff in H3 as [Hx H3]. rewrite Hx. simpl. now rewrite IH.
Qed.

(** C2, on the older driver: with the Playfair cipher of key hello and
    the plaintext of the unit test, the older driver cuts the text in
    twelve chunks, every run that returns has called [applyCipher]
    twelve times, never on the main thread, and what it writes is not
    the ciphertext of the whole text. *)
Theorem older_splits_playfair :
  let settings := settingsFor Playfair "hello" Encrypt in
  let inputText := lit "BOBISSOMESORTOFJUNIORCOMPLEXXENOPHONEONEZEROTHING" in
  let chunks := [lit "BOBIS"; lit "SOME"; lit "SORT"; lit "OFJU"; lit "NIOR";
                 lit "COMP"; lit "LEXX"; lit "ENOP"; lit "HONE"; lit "ONEZ";
                 lit "EROT"; lit "HING"] in
  exists cipher,
    cipherFactory Playfair (cipherKey settings) = Returns cipher
    /\ dispatch Older threadNum settings inputText = Done (Threaded (map Async chunks))
    /\ applyCipher cipher inputText Encrypt
       = lit "FHIQXLTLKLTLSUFNPQPKETFENIOLVSWLTFIAFTLAKOWATEQOKPPA"
    /\ planOutput (doCipher cipher settings) (Threaded (map Async chunks))
       = lit "FHIQUXTLKLTLSUFNPQPKETFENIOLVSYVOKANEAKOFTAWCWFYBQPF"
    /\ forall s c,
         steps Older (doCipher cipher settings) (start (Threaded (map Async chunks))) s ->
         at_ s = Returned c ->
         List.length (appliers (trace s)) = 12%nat
         /\ ~ In MainThread (appliers (trace s)).
Proof.
  intros settings inputText chunks.
  exists (PlayfairCipher (playfairSquare (lit "HELLO"))).
  split; [reflexivity|]. split; [vm_compute; reflexivity|].
  split; [vm_compute; reflexivity|]. split; [vm_compute; reflexivity|].
  intros s c Hsteps Hret.
  apply (returned_appliers Older _ (map Async chunks) s c Hsteps Hret).
Qed.

(** C3, on the older driver: with the Vigenere key AB and a text of 13
    letters, the older driver starts its chunks at 0, 2, 3, 4, ..., 12,
    most of them no multiple of the key length 2, and what it writes is
    not the ciphertext of the whole text. *)
Theorem older_vigenere_misaligned :
  let settings := settingsFor Vigenere "AB" Encrypt in
  let inputText := lit "ABCDEFGHIJKLM" in
  exists cipher acts,
    cipherFactory Vigenere (cipherKey settings) = Returns cipher
    /\ dispatch Older threadNum settings inputText = Done (Threaded acts)
    /\ offsets 0 (submitted acts) = [0; 2; 3; 4; 5; 6; 7; 8; 9; 10; 11; 12]%nat
    /\ ~ Forall (fun o => o mod List.length (cipherKey settings) = 0)%nat
                (offsets 0 (submitted acts))
    /\ applyCipher cipher inputText Encrypt = lit "ACCEEGGIIKKMM"
    /\ planOutput (doCipher cipher settings) (Threaded acts) = lit "ACCDEFGHIJKLM".
Proof.
  intros settings inputText.
  exists (VigenereCipher (lit "AB")).
  eexists. split; [reflexivity|]. split; [vm_compute; reflexivity|].
  split; [reflexivity|]. split; [|split; vm_compute; reflexivity].
  intros H. cbn in H.
  inversion H as [|? ? _ H1]; subst. inversion H1 as [|? ? _ H2]; subst.
  inversion H2 as [|? ? H3 _]; subst. discriminate H3.
Qed.

(** ** Round trips *)

(** C4. For every cipher the factory can build and every upper-case
    text, decrypting the encrypted text gives the text back for the
    shift cipher (key in 0..25) and for the polyalphabetic cipher; for
    the digraph cipher it gives the canonical text (J merged into I,
    doubled pairs broken by a filler, a final filler on an odd length),
    which need not be the text itself. *)
Theorem round_trips (cipher : Cipher) (T : text) :
  validCipher cipher ->
  forallb isUpper T = true ->
  match cipher with
  | PlayfairCipher _ =>
      applyCipher cipher (applyCipher cipher T Encrypt) Decrypt = canonical T
  | _ => applyCipher cipher (applyCipher cipher T Encrypt) Decrypt = T
  end.
Proof.
  intros Hvalid HT. destruct cipher as [key|square|key]; cbn [applyCipher].
  - apply caesar_round_trip.
  - destruct Hvalid as (keyword & _ & Hkey & ->).
    now apply playfair_round_trip.
  - apply vigenere_round_trip.
Qed.

Lemma round_trips_witness :
  validCipher (PlayfairCipher helloSquare)
  /\ forallb isUpper (lit "BOBISSOMESORTOFJUNIORCOMPLEXXENOPHONEONEZEROTHING") = true
  /\ applyCipher (PlayfairCipher helloSquare)
       (applyCipher (PlayfairCipher helloSquare)
          (lit "BOBISSOMESORTOFJUNIORCOMPLEXXENOPHONEONEZEROTHING") Encrypt) Decrypt
     = canonical (lit "BOBISSOMESORTOFJUNIORCOMPLEXXENOPHONEONEZEROTHING").
Proof.
  assert (validCipher (PlayfairCipher helloSquare)) as Hvalid.
  { exists (lit "HELLO"). split; [discriminate|]. split; reflexivity. }
  split; [exact Hvalid|]. split; [reflexivity|].
  apply (round_trips (PlayfairCipher helloSquare)
           (lit "BOBISSOMESORTOFJUNIORCOMPLEXXENOPHONEONEZEROTHING") Hvalid).
  reflexivity.
Defined.

(** A text that ends in a single Z is completed by X, and comes back
    as its canonical text. *)
Example canonical_of_Z :
  canonical (lit "Z") = lit "ZX"
  /\ applyCipher (PlayfairCipher helloSquare)
       (applyCipher (PlayfairCipher helloSquare) (lit "Z") Encrypt) Decrypt
     = lit "ZX".
Proof. split; vm_compute; reflexivity. Qed.

(** The canonical text is not the text in general. *)
Example canonical_differs :
  canonical (lit "BOBISSOMESORTOFJUNIORCOMPLEXXENOPHONEONEZEROTHING")
  = lit "BOBISXSOMESORTOFIUNIORCOMPLEXQXENOPHONEONEZEROTHINGZ".
Proof. vm_compute. reflexivity. Qed.

(** Every shift key in 0..25 is one the factory builds. *)
Lemma caesar_keys_onto (key : Z) :
  0 <= key <= 25 -> exists rawKey, cipherFactory Caesar rawKey = Returns (CaesarCipher key).
Proof.
  intros H.
  assert (key = 0 \/ key = 1 \/ key = 2 \/ key = 3 \/ key = 4 \/ key = 5 \/ key = 6
          \/ key = 7 \/ key = 8 \/ key = 9 \/ key = 10 \/ key = 11 \/ key = 12
          \/ key = 13 \/ key = 14 \/ key = 15 \/ key = 16 \/ key = 17 \/ key = 18
          \/ key = 19 \/ key = 20 \/ key = 21 \/ key = 22 \/ key = 23 \/ key = 24
          \/ key = 25) as Hcases by lia.
  repeat (destruct Hcases as [->|Hcases]);
    [exists (lit "0") | exists (lit "1") | exists (lit "2") | exists (lit "3")
    |exists (lit "4") | exists (lit "5") | exists (lit "6") | exists (lit "7")
    |exists (lit "8") | exists (lit "9") | exists (lit "10") | exists (lit "11")
    |exists (lit "12") | exists (lit "13") | exists (lit "14") | exists (lit "15")
    |exists (lit "16") | exists (lit "17") | exists (lit "18") | exists (lit "19")
    |exists (lit "20") | exists (lit "21") | exists (lit "22") | exists (lit "23")
    |exists (lit "24") | subst key; exists (lit "25")]; reflexivity.
Qed.

(** ** Scenarios *)

(** C6. The three scenarios of the unit test, on the ciphers the
    factory builds: shift key 10, digraph key hello (whose decryption is
    the canonical text, not the plaintext), polyalphabetic key hello. *)
Theorem end_to_end_scenarios :
  (exists cipher,
     cipherFactory Caesar (lit "10") = Returns cipher
     /\ applyCipher cipher (lit "HELLOWORLD") Encrypt = lit "ROVVYGYBVN"
     /\ applyCipher cipher (lit "ROVVYGYBVN") Decrypt = lit "HELLOWORLD")
  /\ (exists cipher,
        cipherFactory Playfair (lit "hello") = Returns cipher
        /\ applyCipher cipher
             (lit "BOBISSOMESORTOFJUNIORCOMPLEXXENOPHONEONEZEROTHING") Encrypt
           = lit "FHIQXLTLKLTLSUFNPQPKETFENIOLVSWLTFIAFTLAKOWATEQOKPPA"
        /\ applyCipher cipher
             (lit "FHIQXLTLKLTLSUFNPQPKETFENIOLVSWLTFIAFTLAKOWATEQOKPPA") Decrypt
           = lit "BOBISXSOMESORTOFIUNIORCOMPLEXQXENOPHONEONEZEROTHINGZ"
        /\ canonical (lit "BOBISSOMESORTOFJUNIORCOMPLEXXENOPHONEONEZEROTHING")
           = lit "BOBISXSOMESORTOFIUNIORCOMPLEXQXENOPHONEONEZEROTHINGZ"
        /\ lit "BOBISXSOMESORTOFIUNIORCOMPLEXQXENOPHONEONEZEROTHINGZ"
           <> lit "BOBISSOMESORTOFJUNIORCOMPLEXXENOPHONEONEZEROTHING")
  /\ (exists cipher,
        cipherFactory Vigenere (lit "hello") = Returns cipher
        /\ applyCipher cipher
             (lit "THISISQUITEALONGMESSAGESOTHEKEYWILLNEEDTOREPEATAFEWTIMES") Encrypt
           = lit "ALTDWZUFTHLEWZBNQPDGHKPDCALPVSFATWZUIPOHVVPASHXLQSDXTXSZ"
        /\ applyCipher cipher
             (lit "ALTDWZUFTHLEWZBNQPDGHKPDCALPVSFATWZUIPOHVVPASHXLQSDXTXSZ") Decrypt
           = lit "THISISQUITEALONGMESSAGESOTHEKEYWILLNEEDTOREPEATAFEWTIMES").
Proof.
  split; [|split].
  - exists (CaesarCipher 10). repeat split; vm_compute; reflexivity.
  - exists (PlayfairCipher helloSquare).
    repeat split; try (vm_compute; reflexivity).
    vm_compute. discriminate.
  - exists (VigenereCipher (lit "HELLO")). repeat split; vm_compute; reflexivity.
Qed.

(** With Z between the two X, as the prose of section 4.2 has it, the
    second scenario would not come out. *)
Example scenario_2_has_Q_between_X :
  playfairApplyWith fillerAsWorded helloSquare
    (lit "BOBISSOMESORTOFJUNIORCOMPLEXXENOPHONEONEZEROTHING") Encrypt
  <> lit "FHIQXLTLKLTLSUFNPQPKETFENIOLVSWLTFIAFTLAKOWATEQOKPPA".
Proof. vm_compute. discriminate. Qed.

(** ** Key validation *)

Lemma throws_iff_malformed (type : CipherType) (rawKey : text) :
  throwsInvalidKey type rawKey <-> malformed type rawKey.
Proof.
  unfold throwsInvalidKey, malformed, cipherFactory, caesarKey, keywordKey.
  destruct type; (destruct rawKey as [|c r];
    [split; [intros _; now left | intros _; eexists; reflexivity]|]).
  - destruct (forallb isDigit (c :: r)) eqn:E.
    + split; [intros (msg & H); discriminate|].
      intros [H|(x & Hx & Hd)]; [discriminate|].
      rewrite forallb_forall in E. rewrite (E x Hx) in Hd. discriminate.
    + split; [|intros _; eexists; reflexivity].
      intros _. right. now apply forallb_false_witness.
  - destruct (forallb isAlpha (c :: r)) eqn:E.
    + split; [intros (msg & H); discriminate|].
      intros [H|(x & Hx & Hd)]; [discriminate|].
      rewrite forallb_forall in E. rewrite (E x Hx) in Hd. discriminate.
    + split; [|intros _; eexists; reflexivity].
      intros _. right. now apply forallb_false_witness.
  - destruct (forallb isAlpha (c :: r)) eqn:E.
    + split; [intros (msg & H); discriminate|].
      intros [H|(x & Hx & Hd)]; [discriminate|].
      rewrite forallb_forall in E. rewrite (E x Hx) in Hd. discriminate.
    + split; [|intros _; eexists; reflexivity].
      intros _. right. now apply forallb_false_witness.
Qed.

(** C5. The factory throws [InvalidKey] exactly on a malformed key (a
    shift key that is empty or has a character that is no digit, a
    keyword that is empty or has a character that is no letter), and
    then returns no cipher; a well-formed shift key gives the shift
    cipher of its value modulo 26, however large. The keys of the unit
    test fall as the test says. *)
Theorem factory_rejects_malformed_keys :
  (forall type rawKey, throwsInvalidKey type rawKey <-> malformed type rawKey)
  /\ (forall type rawKey cipher,
        throwsInvalidKey type rawKey -> cipherFactory type rawKey <> Returns cipher)
  /\ (forall rawKey,
        ~ malformed Caesar rawKey ->
        cipherFactory Caesar rawKey = Returns (CaesarCipher (parseDecimal rawKey mod 26)))
  /\ throwsInvalidKey Caesar (lit "-10")
  /\ throwsInvalidKey Caesar (lit "agfag")
  /\ throwsInvalidKey Caesar (lit ";[]'.")
  /\ cipherFactory Caesar (lit "10") = Returns (CaesarCipher 10)
  /\ cipherFactory Caesar (lit "36") = Returns (CaesarCipher 10)
  /\ cipherFactory Caesar (lit "100000000000000000000000000000010")
     = Returns (CaesarCipher 6)
  /\ throwsInvalidKey Vigenere (lit "1340")
  /\ throwsInvalidKey Vigenere (lit "-10")
  /\ throwsInvalidKey Vigenere (lit ";[]'.")
  /\ cipherFactory Playfair (lit "hello") = Returns (PlayfairCipher helloSquare)
  /\ cipherFactory Vigenere (lit "hello") = Returns (VigenereCipher (lit "HELLO")).
Proof.
  split; [exact throws_iff_malformed|].
  split; [intros type rawKey cipher (msg & H); rewrite H; discriminate|].
  split.
  { intros rawKey Hok.
    destruct (cipherFactory Caesar rawKey) as [cipher|msg] eqn:E.
    - unfold cipherFactory in E.
      destruct (caesarKey rawKey) as [k|] eqn:Ek; [|discriminate].
      injection E as <-.
      now destruct (caesarKey_Some _ _ Ek) as (_ & _ & -> & _).
    - exfalso. apply Hok. apply throws_iff_malformed. now exists msg. }
  repeat split; try (eexists; reflexivity); vm_compute; reflexivity.
Qed.

(** * The whole of [main] *)

(** ** Lines printed while chunking *)

Lemma printed_app (a b : list event) : printed (a ++ b) = printed a ++ printed b.
Proof. apply flat_map_app. Qed.

Lemma applied_app (a b : list event) : applied (a ++ b) = applied a ++ applied b.
Proof. apply flat_map_app. Qed.

Lemma couts_asyncs (cs : list text) : couts (map Async cs) = [].
Proof. induction cs; simpl; auto. Qed.

Lemma printed_of_step (d : driver) (f : text -> text) (acts : list action)
    (s s' : state) :
  match at_ s with
  | Chunking todo => printed (trace s) ++ couts todo = couts acts
  | _ => printed (trace s) = couts acts
  end ->
  step d f s s' ->
  match at_ s' with
  | Chunking todo => printed (trace s') ++ couts todo = couts acts
  | _ => printed (trace s') = couts acts
  end.
Proof.
  intros H Hstep.
  destruct Hstep; cbn [at_ trace] in *;
    rewrite ?printed_app; cbn [printed flat_map app]; rewrite ?app_nil_r;
    try assumption.
  - rewrite <- H. cbn [couts flat_map app]. now rewrite <- app_assoc.
  - cbn [couts flat_map] in H. now rewrite app_nil_r in H.
  - destruct d; cbn; now rewrite app_nil_r.
  - destruct d; cbn; now rewrite app_nil_r.
Qed.

Lemma printed_of_run (d : driver) (f : text -> text) (acts : list action) (s : state) :
  steps d f (start (Threaded acts)) s ->
  match at_ s with
  | Chunking todo => printed (trace s) ++ couts todo = couts acts
  | _ => printed (trace s) = couts acts
  end.
Proof.
  intros Hsteps. remember (start (Threaded acts)) as s0 eqn:E.
  induction Hsteps as [s|s1 s2 s3 _ IH Hstep].
  - subst. reflexivity.
  - eapply printed_of_step; [apply IH, E | exact Hstep].
Qed.

(** ** From the start of the cipher work to the assembled output *)

Lemma writing_facts (d : driver) (f : text -> text) (p : plan) (s : state) :
  steps d f (start p) s -> at_ s = Writing ->
  outputText s = planOutput f p /\ printed (trace s) = planCouts p.
Proof.
  intros Hsteps Hw. destruct p as [inputText|acts].
  - destruct (synchronous_states d f inputText s Hsteps) as [-> | [-> | [-> | ->]]];
      try discriminate Hw. split; reflexivity.
  - pose proof (printed_of_run d f acts s Hsteps) as Hp.
    pose proof (steps_keep_Inv d f _ _ _ (Inv_start f acts) Hsteps) as (_ & _ & _ & Hpc).
    rewrite Hw in Hp, Hpc. destruct Hpc as ((_ & _ & _ & Hout & _) & _).
    split; [|exact Hp].
    cbn [planOutput]. now rewrite reassemble_concat, Hout, firstn_all.
Qed.

Lemma step_exists_before_writing (d : driver) (f : text -> text) (chunks : list text)
    (s : state) :
  Inv f chunks s -> at_ s <> Writing -> (forall c, at_ s <> Returned c) ->
  exists s', step d f s s' /\ forall c, at_ s' <> Returned c.
Proof.
  intros (_ & _ & _ & Hpc) Hw Hnot.
  destruct s as [p fs flag out tr]. cbn [at_ futures allFuturesReady] in *.
  destruct p as [t|todo| |i|i| |c]; try contradiction.
  - destruct todo as [|[item|chunk] todo]; eexists;
      (split; [first [apply step_chunked | apply step_cout | apply step_async]
              | intros c; discriminate]).
  - destruct Hpc as (_ & Hflag & _). subst flag.
    eexists. split; [apply step_poll_leave; lia | intros c; discriminate].
  - destruct (nth_error fs i) as [[input|result]|] eqn:E.
    + eexists. split; [eapply step_worker; exact E | intros c; discriminate].
    + eexists. split; [eapply step_get; exact E | intros c; discriminate].
    + eexists. split; [apply step_collected; now apply nth_error_None
                      | intros c; discriminate].
  - exfalso. now apply (Hnot c).
Qed.

Lemma pc_eq_Writing (p : pc) : p = Writing \/ p <> Writing.
Proof. destruct p; (left; reflexivity) || (right; discriminate). Qed.

Lemma run_reaches_writing (d : driver) (f : text -> text) (chunks : list text) :
  forall (m : nat) (s : state),
    (measure s < m)%nat -> Inv f chunks s -> (forall c, at_ s <> Returned c) ->
    exists s', steps d f s s' /\ at_ s' = Writing.
Proof.
  induction m as [|m IH]; intros s Hm HI Hnot; [lia|].
  destruct (pc_eq_Writing (at_ s)) as [Hw|Hw].
  - exists s. split; [apply steps_refl | exact Hw].
  - destruct (step_exists_before_writing d f chunks s HI Hw Hnot) as (s1 & Hstep & Hnot1).
    pose proof (step_decreases d f chunks s s1 HI Hstep) as Hdec.
    pose proof (step_keeps_Inv d f chunks s s1 HI Hstep) as HI1.
    destruct (IH s1 ltac:(lia) HI1 Hnot1) as (s' & Hsteps & Hret).
    exists s'. split; [eapply steps_first; eassumption | exact Hret].
Qed.

Lemma plan_reaches_writing (d : driver) (f : text -> text) (p : plan) :
  exists s, steps d f (start p) s /\ at_ s = Writing.
Proof.
  destruct p as [inputText|acts].
  - eexists. split; [eapply steps_first; [apply step_call | apply steps_refl] | reflexivity].
  - apply (run_reaches_writing d f (submitted acts) (S (measure (start (Threaded acts))))).
    + lia.
    + apply Inv_start.
    + intros c. discriminate.
Qed.

(** The polling body is never reached, in either driver. *)
Lemma never_in_poll_body (d : driver) (f : text -> text) (p : plan) (s : state) :
  steps d f (start p) s -> forall i, at_ s <> PollBody i.
Proof.
  intros Hsteps i. destruct p as [inputText|acts].
  - destruct (synchronous_states d f inputText s Hsteps) as [-> | [-> | [-> | ->]]];
      discriminate.
  - pose proof (steps_keep_Inv d f _ _ _ (Inv_start f acts) Hsteps) as (_ & _ & _ & Hpc).
    intros E. rewrite E in Hpc. contradiction.
Qed.

Lemma step_any_driver (d d' : driver) (f : text -> text) (s s' : state) :
  (forall i, at_ s <> PollBody i) -> step d f s s' -> step d' f s s'.
Proof.
  intros Hnot Hstep.
  destruct Hstep; try (exfalso; eapply Hnot; reflexivity);
    try (constructor; assumption).
Qed.

Lemma steps_any_driver (d d' : driver) (f : text -> text) (p : plan) (s : state) :
  steps d f (start p) s -> steps d' f (start p) s.
Proof.
  intros Hsteps. remember (start p) as s0 eqn:E.
  induction Hsteps as [s|s1 s2 s3 H12 IH Hstep].
  - apply steps_refl.
  - eapply steps_more; [apply IH, E|].
    apply (step_any_driver d d'); [|exact Hstep].
    subst s1. apply (never_in_poll_body d f p s2 H12).
Qed.

(** ** Exit code and output of [main] *)

(** The uniform loop lets no exception out, whatever the sizes. *)
Lemma uniformLoop_large (inputText : text) (chunkLength : Z) :
  SizeT.modulus <= len inputText ->
  forall (n : nat) (start e : Z) (futs : list action),
    start < SizeT.modulus ->
    exists acts, uniformLoop n inputText chunkLength start e futs = Done acts.
Proof.
  intros Hlen.
  assert (forall z, SizeT.wrap z < SizeT.modulus) as Hwrap.
  { intros z. unfold SizeT.wrap. apply Z.mod_pos_bound. reflexivity. }
  assert (forall pos m, pos < SizeT.modulus ->
            substr inputText pos m
            = Done (firstn (Z.to_nat m) (skipn (Z.to_nat pos) inputText))) as Hsub.
  { intros pos m Hpos. unfold substr.
    destruct (len inputText <? pos) eqn:E; [apply Z.ltb_lt in E; lia | reflexivity]. }
  induction n as [|n IH]; intros start e futs Hstart.
  - eexists. reflexivity.
  - cbn [uniformLoop]. rewrite (Hsub _ _ Hstart). cbn [bind]. cbv zeta.
    unfold SizeT.add.
    destruct (0 <? e).
    + rewrite (Hsub _ _ (Hwrap _)). cbn [bind]. apply IH, Hwrap.
    + apply IH, Hwrap.
Qed.

Lemma uniformChunks_total (n : Z) (inputText : text) :
  1 <= n -> exists acts, uniformChunks n inputText = Done acts.
Proof.
  intros Hn. destruct (Z_lt_ge_dec (len inputText) SizeT.modulus) as [Hlen|Hlen].
  - destruct (uniformChunks_spec n inputText Hn Hlen) as (cs & Hrun & _).
    eexists. exact Hrun.
  - unfold uniformChunks, SizeT.div.
    destruct (n =? 0) eqn:E; [apply Z.eqb_eq in E; lia|].
    cbv zeta. apply uniformLoop_large; [lia | reflexivity].
Qed.

(** The chunking of either driver gives a plan, but for the division
    by the length of an empty key. *)
Lemma dispatch_outcome (d : driver) (settings : ProgramSettings) (inputText : text) :
  match d, cipherType settings with
  | Newer, Vigenere =>
      if len (cipherKey settings) =? 0
      then dispatch d threadNum settings inputText = Undefined
      else exists p, dispatch d threadNum settings inputText = Done p
  | _, _ => exists p, dispatch d threadNum settings inputText = Done p
  end.
Proof.
  assert (exists p, (acts <- uniformChunks threadNum inputText ;; Done (Threaded acts))
                    = Done p) as Huniform.
  { destruct (uniformChunks_total threadNum inputText) as (acts & ->);
      [unfold threadNum; lia|].
    eexists. reflexivity. }
  destruct d; [exact Huniform|].
  unfold dispatch. destruct (cipherType settings).
  - exact Huniform.
  - eexists. reflexivity.
  - unfold vigenereChunks, SizeT.div.
    destruct (len (cipherKey settings) =? 0); [reflexivity|].
    change (threadNum =? 0) with false. cbv iota.
    match goal with
    | |- context [vigenereLoop ?n ?t ?c ?i ?f] =>
        destruct (vigenereLoop_total t c n i f) as (acts & -> & _)
    end.
    eexists. reflexivity.
Qed.

(** The exit code of a run, read off the environment. *)
Lemma exit_code_of_run (d : driver) (env : environment) (code : Z) (ios : list io) :
  mainRun d env code ios ->
  code = (if failure env then 1 else 0).
Proof.
  intros Hrun. destruct Hrun as [code ios H | settings apply inputText p s H _ _ _].
  - unfold prelude, failure in *.
    destruct (processCommandLine env) as [w|w|settings];
      try (injection H as <- _; reflexivity).
    destruct (helpRequested settings); [injection H as <- _; reflexivity|].
    destruct (versionRequested settings); [injection H as <- _; reflexivity|].
    destruct (factory env _ _); try (injection H as <- _; reflexivity).
    destruct (inputFile settings) as [|c file]; [discriminate|].
    destruct (readFile env _); [discriminate|].
    injection H as <- _. reflexivity.
  - unfold prelude, failure, epilogue in *.
    destruct (processCommandLine env) as [w|w|settings']; try discriminate.
    destruct (helpRequested settings'); [discriminate|].
    destruct (versionRequested settings'); [discriminate|].
    destruct (factory env _ _); try discriminate.
    assert (settings' = settings) as ->.
    { destruct (inputFile settings'); [|destruct (readFile env _)];
        congruence. }
    destruct (inputFile settings) as [|c file].
    + destruct (outputFile settings) as [|c' file']; [reflexivity|].
      destruct (canWrite env _); reflexivity.
    + destruct (readFile env _); [|discriminate].
      destruct (outputFile settings) as [|c' file']; [reflexivity|].
      destruct (canWrite env _); reflexivity.
Qed.

(** No run gets past a division by zero. *)
Lemma no_run_dividing_by_zero (d : driver) (env : environment) (code : Z) (ios : list io) :
  dividesByZero d env = true -> ~ mainRun d env code ios.
Proof.
  unfold dividesByZero. intros Hzero Hrun.
  destruct Hrun as [code ios H | settings apply inputText p s H Hplan _ _].
  - rewrite H in Hzero. destruct d; discriminate.
  - rewrite H in Hzero. destruct d; [discriminate|].
    pose proof (dispatch_outcome Newer settings inputText) as Hout.
    cbv iota in Hout.
    destruct (cipherType settings); try discriminate.
    rewrite Hzero in Hout. congruence.
Qed.

(** A run exists when nothing is divided by zero. *)
Lemma run_exists (d : driver) (env : environment) :
  dividesByZero d env = false -> exists code ios, mainRun d env code ios.
Proof.
  unfold dividesByZero. intros Hzero.
  destruct (prelude env) as [code ios|settings apply inputText] eqn:Hpre.
  - exists code, ios. now apply main_exits.
  - assert (exists p, dispatch d threadNum settings inputText = Done p) as (p & Hplan).
    { pose proof (dispatch_outcome d settings inputText) as Hout.
      destruct d; [exact Hout|]. cbv iota in Hout.
      destruct (cipherType settings); try exact Hout.
      now rewrite Hzero in Hout. }
    destruct (plan_reaches_writing d (fun input => apply input (cipherMode settings)) p)
      as (s & Hsteps & Hw).
    eexists. eexists.
    now apply (main_completes d env settings apply inputText p s).
Qed.

(** X1. Every run of [main], in either driver and for every
    interleaving of the threads, ends with the exit code that the
    environment alone fixes: 1 when the command line is rejected or, no
    help and no version being asked for, the key is rejected, the
    factory returns a null pointer, the input file cannot be read or
    the output file cannot be opened; 0 otherwise, so also for a help
    or version request with a key that is not valid. A run with that
    exit code exists, with one exception: when the driver with one
    branch per cipher type gets to its Vigenere branch with an empty
    key, it divides by zero and has no run and no exit code at all. *)
Theorem main_exit_code (d : driver) (env : environment) :
  (forall code ios,
     mainRun d env code ios -> code = (if failure env then 1 else 0))
  /\ (if dividesByZero d env
      then forall code ios, ~ mainRun d env code ios
      else exists ios, mainRun d env (if failure env then 1 else 0) ios).
Proof.
  split; [intros code ios; apply exit_code_of_run|].
  destruct (dividesByZero d env) eqn:Hzero.
  - intros code ios. now apply no_run_dividing_by_zero.
  - destruct (run_exists d env Hzero) as (code & ios & Hrun).
    exists ios. now rewrite <- (exit_code_of_run d env code ios Hrun).
Qed.

Lemma main_exit_code_witness :
  (exists ios, mainRun Newer (sampleEnv Vigenere "ab" "at dawn") 0 ios)
  /\ (exists ios, mainRun Older (sampleEnv Playfair "hello" "at dawn") 0 ios)
  /\ (exists ios, mainRun Newer (sampleEnv Vigenere "1340" "hello") 1 ios).
Proof.
  split; [|split].
  - exact (proj2 (main_exit_code Newer (sampleEnv Vigenere "ab" "at dawn"))).
  - exact (proj2 (main_exit_code Older (sampleEnv Playfair "hello" "at dawn"))).
  - exact (proj2 (main_exit_code Newer (sampleEnv Vigenere "1340" "hello"))).
Defined.

(** With a factory that lets an empty key through, the driver with one
    branch per cipher type has no run on a Vigenere request, while the
    uniform driver ends with exit code 0. *)
Example empty_key_divides_by_zero :
  let env :=
    {| processCommandLine := Parsed (settingsFor Vigenere "" Encrypt);
       factory := fun _ _ => Constructs (fun t _ => t);
       transformChar := fun c => [c];
       stdin := lit "HELLO";
       readFile := fun _ => None;
       canWrite := fun _ => true |} in
  failure env = false
  /\ dispatch Newer threadNum (settingsFor Vigenere "" Encrypt) (lit "HELLO") = Undefined
  /\ (forall code ios, ~ mainRun Newer env code ios)
  /\ exists ios, mainRun Older env 0 ios.
Proof.
  intros env. split; [reflexivity|]. split; [reflexivity|]. split.
  - intros code ios. now apply no_run_dividing_by_zero.
  - destruct (run_exists Older env eq_refl) as (code & ios & Hrun).
    pose proof (exit_code_of_run Older env code ios Hrun) as Hcode.
    change (code = 0) in Hcode. subst code. now exists ios.
Qed.

(** X2. Once the command line, the key and the input are accepted and
    the chunking loop ends, every run of [main], whatever the order in
    which the threads end, has the same exit code and leaves the same
    lines behind: the lines of the chunking loop on std::cout, then the
    chunk results appended in submission order, on std::cout or in the
    output file (or the error of an output file that cannot be opened);
    and such a run exists. *)
Theorem main_output_determined (d : driver) (env : environment)
    (settings : ProgramSettings) (apply : text -> CipherMode -> text)
    (inputText : text) (p : plan) :
  prelude env = Proceeds settings apply inputText ->
  dispatch d threadNum settings inputText = Done p ->
  (forall code ios,
     mainRun d env code ios ->
     code = fst (epilogue env settings
                   (planOutput (fun input => apply input (cipherMode settings)) p))
     /\ ios = map Stdout (planCouts p)
              ++ snd (epilogue env settings
                        (planOutput (fun input => apply input (cipherMode settings)) p)))
  /\ mainRun d env
       (fst (epilogue env settings
               (planOutput (fun input => apply input (cipherMode settings)) p)))
       (map Stdout (planCouts p)
        ++ snd (epilogue env settings
                  (planOutput (fun input => apply input (cipherMode settings)) p))).
Proof.
  intros Hpre Hplan. split.
  - intros code ios Hrun.
    destruct Hrun as [code ios H | settings' apply' inputText' p' s H Hplan' Hsteps Hw];
      [congruence|].
    rewrite Hpre in H. injection H as <- <- <-.
    rewrite Hplan in Hplan'. injection Hplan' as <-.
    destruct (writing_facts d _ p s Hsteps Hw) as [-> ->]. split; reflexivity.
  - destruct (plan_reaches_writing d (fun input => apply input (cipherMode settings)) p)
      as (s & Hsteps & Hw).
    destruct (writing_facts d _ p s Hsteps Hw) as [Hout Hprinted].
    rewrite <- Hout, <- Hprinted.
    now apply (main_completes d env settings apply inputText p s).
Qed.

Lemma main_output_determined_witness :
  prelude (sampleEnv Vigenere "ab" "at dawn")
  = Proceeds (settingsFor Vigenere "ab" Encrypt)
      (applyCipher (VigenereCipher (lit "AB"))) (lit "ATDAWN")
  /\ dispatch Newer threadNum (settingsFor Vigenere "ab" Encrypt) (lit "ATDAWN")
     = Done (Threaded
         [Cout (CoutNum 0); Cout (CoutText (lit "AT")); Async (lit "AT");
          Cout (CoutNum 1); Cout (CoutText (lit "DA")); Async (lit "DA");
          Cout (CoutNum 2); Cout (CoutText (lit "WN")); Async (lit "WN");
          Cout (CoutNum 3); Cout (CoutText []); Async [];
          Cout (CoutNum 4)])
  /\ mainRun Newer (sampleEnv Vigenere "ab" "at dawn") 0
       [Stdout (CoutNum 0); Stdout (CoutText (lit "AT"));
        Stdout (CoutNum 1); Stdout (CoutText (lit "DA"));
        Stdout (CoutNum 2); Stdout (CoutText (lit "WN"));
        Stdout (CoutNum 3); Stdout (CoutText []);
        Stdout (CoutNum 4);
        Stdout (CoutText (lit "AUDBWO"))].
Proof.
  split; [reflexivity|]. split; [vm_compute; reflexivity|].
  exact (proj2 (main_output_determined Newer (sampleEnv Vigenere "ab" "at dawn")
                  (settingsFor Vigenere "ab" Encrypt)
                  (applyCipher (VigenereCipher (lit "AB"))) (lit "ATDAWN") _
                  eq_refl eq_refl)).
Defined.

(** ** The two drivers side by side *)

(** X3. When the cipher asked for is the Caesar cipher, the two
    versions of [main] cannot be told apart: in every environment they
    have the same runs, with the same exit codes and the same lines
    written. *)
Theorem drivers_agree_on_caesar (env : environment) (code : Z) (ios : list io) :
  (forall settings, processCommandLine env = Parsed settings ->
                    cipherType settings = Caesar) ->
  mainRun Older env code ios <-> mainRun Newer env code ios.
Proof.
  intros Hcaesar.
  assert (forall d d', mainRun d env code ios -> mainRun d' env code ios) as H.
  { intros d d' Hrun.
    destruct Hrun as [code ios H | settings apply inputText p s H Hplan Hsteps Hw].
    - now apply main_exits.
    - apply (main_completes d' env settings apply inputText p s); try assumption.
      + assert (cipherType settings = Caesar) as Htype.
        { apply Hcaesar. unfold prelude in H.
          destruct (processCommandLine env) as [w|w|settings']; try discriminate.
          destruct (helpRequested settings'); [discriminate|].
          destruct (versionRequested settings'); [discriminate|].
          destruct (factory env _ _); try discriminate.
          destruct (inputFile settings'); [|destruct (readFile env _)];
            congruence. }
        rewrite <- Hplan. unfold dispatch. rewrite Htype. now destruct d, d'.
      + apply (steps_any_driver d d'). exact Hsteps. }
  split; apply H.
Qed.

Lemma drivers_agree_on_caesar_witness :
  (forall settings,
     processCommandLine (sampleEnv Caesar "10" "hello world") = Parsed settings ->
     cipherType settings = Caesar)
  /\ (mainRun Older (sampleEnv Caesar "10" "hello world") 0
        [Stdout (CoutText (lit "ROVVYGYBVN"))]
      <-> mainRun Newer (sampleEnv Caesar "10" "hello world") 0
            [Stdout (CoutText (lit "ROVVYGYBVN"))]).
Proof.
  assert (forall settings,
            processCommandLine (sampleEnv Caesar "10" "hello world") = Parsed settings ->
            cipherType settings = Caesar) as H.
  { intros settings E. injection E as <-. reflexivity. }
  split; [exact H|].
  exact (drivers_agree_on_caesar (sampleEnv Caesar "10" "hello world") 0
           [Stdout (CoutText (lit "ROVVYGYBVN"))] H).
Defined.

(** ** Ciphers that work character by character *)

Lemma concat_hom (f : text -> text) :
  (forall a b, f (a ++ b) = f a ++ f b) ->
  forall chunks, concat (map f chunks) = f (concat chunks).
Proof.
  intros Hhom.
  assert (f [] = []) as Hnil.
  { pose proof (Hhom [] []) as H. simpl in H.
    apply (f_equal (@List.length ascii)) in H. rewrite length_app in H.
    destruct (f []); [reflexivity | simpl in H; lia]. }
  induction chunks as [|c cs IH]; simpl; [now rewrite Hnil|].
  now rewrite Hhom, IH.
Qed.

(** X7. With a cipher whose [applyCipher] goes through a concatenation
    piece by piece (as one that works character by character does), the
    uniform chunking is invisible: in the older driver whatever the
    cipher type, in the newer one for the Caesar type, every run of
    [main] on accepted arguments writes exactly [applyCipher] of the
    whole input and nothing else, and such a run exists. *)
Theorem uniform_chunking_is_invisible (d : driver) (env : environment)
    (settings : ProgramSettings) (apply : text -> CipherMode -> text)
    (inputText : text) :
  prelude env = Proceeds settings apply inputText ->
  d = Older \/ cipherType settings = Caesar ->
  (forall a b, apply (a ++ b) (cipherMode settings)
               = apply a (cipherMode settings) ++ apply b (cipherMode settings)) ->
  len inputText < SizeT.modulus ->
  (forall code ios,
     mainRun d env code ios ->
     code = fst (epilogue env settings (apply inputText (cipherMode settings)))
     /\ ios = snd (epilogue env settings (apply inputText (cipherMode settings))))
  /\ mainRun d env
       (fst (epilogue env settings (apply inputText (cipherMode settings))))
       (snd (epilogue env settings (apply inputText (cipherMode settings)))).
Proof.
  intros Hpre Hd Hhom Hlen.
  destruct (uniformChunks_spec threadNum inputText ltac:(unfold threadNum; lia) Hlen)
    as (cs & Hrun & _ & Hcat & _).
  assert (dispatch d threadNum settings inputText = Done (Threaded (map Async cs)))
    as Hplan.
  { unfold dispatch. destruct Hd as [-> | Htype]; [now rewrite Hrun|].
    rewrite Htype. destruct d; now rewrite Hrun. }
  assert (planOutput (fun input => apply input (cipherMode settings))
            (Threaded (map Async cs))
          = apply inputText (cipherMode settings)) as Hout.
  { cbn [planOutput]. rewrite submitted_asyncs, reassemble_concat.
    rewrite (concat_hom (fun input => apply input (cipherMode settings)) Hhom).
    now rewrite Hcat. }
  split.
  - intros code ios Hmain.
    destruct Hmain as [code ios H | settings' apply' inputText' p' s H Hplan' Hsteps Hw];
      [congruence|].
    rewrite Hpre in H. injection H as <- <- <-.
    rewrite Hplan in Hplan'. injection Hplan' as <-.
    destruct (writing_facts d _ _ s Hsteps Hw) as [Ho Hp].
    rewrite Ho, Hp, Hout. cbn [planCouts]. rewrite couts_asyncs. split; reflexivity.
  - destruct (plan_reaches_writing d (fun input => apply input (cipherMode settings))
                (Threaded (map Async cs))) as (s & Hsteps & Hw).
    destruct (writing_facts d _ _ s Hsteps Hw) as [Ho Hp].
    rewrite <- Hout, <- Ho.
    change (snd (epilogue env settings (outputText s)))
      with (map Stdout [] ++ snd (epilogue env settings (outputText s))).
    rewrite <- (couts_asyncs cs). cbn [planCouts] in Hp. rewrite <- Hp.
    now apply (main_completes d env settings apply inputText
                 (Threaded (map Async cs)) s).
Qed.

Lemma uniform_chunking_is_invisible_witness :
  prelude (sampleEnv Caesar "10" "hello world")
  = Proceeds (settingsFor Caesar "10" Encrypt)
      (applyCipher (CaesarCipher 10)) (lit "HELLOWORLD")
  /\ (Older = Older \/ cipherType (settingsFor Caesar "10" Encrypt) = Caesar)
  /\ (forall a b, applyCipher (CaesarCipher 10) (a ++ b) Encrypt
                  = applyCipher (CaesarCipher 10) a Encrypt
                    ++ applyCipher (CaesarCipher 10) b Encrypt)
  /\ len (lit "HELLOWORLD") < SizeT.modulus
  /\ mainRun Older (sampleEnv Caesar "10" "hello world") 0
       [Stdout (CoutText (lit "ROVVYGYBVN"))].
Proof.
  split; [reflexivity|]. split; [left; reflexivity|].
  split; [intros a b; apply caesarApply_app|].
  split; [vm_compute; reflexivity|].
  exact (proj2 (uniform_chunking_is_invisible Older (sampleEnv Caesar "10" "hello world")
                  (settingsFor Caesar "10" Encrypt)
                  (applyCipher (CaesarCipher 10)) (lit "HELLOWORLD")
                  eq_refl (or_introl eq_refl)
                  (fun a b => caesarApply_app 10 Encrypt a b)
                  eq_refl)).
Defined.

(** ** Who enciphers what *)

Lemma readyFrom_snoc_running (c : text) :
  forall (fs : list future) (k : nat) (chunks : list text),
    readyFrom k (fs ++ [Running c]) chunks = readyFrom k fs chunks.
Proof.
  induction fs as [|fu fs IH]; intros k [|c' chunks]; simpl; try reflexivity.
  now rewrite IH.
Qed.

Lemma readyFrom_update (f : text -> text) (rest : list text) (r : text) :
  forall (fs : list future) (done : list text),
    Forall2 (agrees f) fs done ->
    forall (k i : nat) (input : text),
      nth_error fs i = Some (Running input) ->
      Permutation ((Worker (k + i), input) :: readyFrom k fs (done ++ rest))
                  (readyFrom k (update i (Ready r) fs) (done ++ rest)).
Proof.
  induction 1 as [|fu c fs done Hfu Hrest IH]; intros k i input Hi.
  - destruct i; discriminate.
  - destruct i as [|i]; simpl in Hi.
    + injection Hi as ->. simpl in Hfu. subst c.
      rewrite Nat.add_0_r. simpl. apply Permutation_refl.
    + specialize (IH (S k) i input Hi).
      replace (S k + i)%nat with (k + S i)%nat in IH by lia.
      cbn [update readyFrom app].
      change ((c :: done) ++ rest) with (c :: (done ++ rest)).
      cbn [readyFrom].
      eapply perm_trans; [apply Permutation_middle|].
      now apply Permutation_app_head.
Qed.

Lemma readyFrom_all (f : text -> text) :
  forall (fs : list future) (chunks : list text),
    Forall2 (agrees f) fs chunks -> forallb isReady fs = true ->
    forall k, readyFrom k fs chunks = ownWorkers k chunks.
Proof.
  induction 1 as [|fu c fs chunks _ _ IH]; intros Hready k; [reflexivity|].
  simpl in Hready. apply andb_true_iff in Hready as [Hfu Hready].
  simpl. rewrite Hfu. simpl. now rewrite IH.
Qed.

Lemma In_readyFrom (t : thread) (c : text) :
  forall (fs : list future) (chunks : list text) (k : nat),
    In (t, c) (readyFrom k fs chunks) ->
    exists i, t = Worker (k + i) /\ nth_error chunks i = Some c.
Proof.
  induction fs as [|fu fs IH]; intros [|c' chunks] k Hin; simpl in Hin;
    try contradiction.
  apply in_app_or in Hin as [Hin|Hin].
  - destruct (isReady fu); [|contradiction].
    destruct Hin as [E|[]]. injection E as <- <-.
    exists 0%nat. split; [now rewrite Nat.add_0_r | reflexivity].
  - destruct (IH chunks (S k) Hin) as (i & -> & Hi).
    exists (S i). split; [f_equal; lia | exact Hi].
Qed.

Lemma NoDup_readyFrom :
  forall (fs : list future) (chunks : list text) (k : nat),
    NoDup (map fst (readyFrom k fs chunks)).
Proof.
  induction fs as [|fu fs IH]; intros [|c chunks] k; simpl; try constructor.
  destruct (isReady fu); simpl; [|apply IH].
  constructor; [|apply IH].
  intros Hin. apply in_map_iff in Hin as ([t c'] & Et & Hin). simpl in Et. subst t.
  destruct (In_readyFrom _ _ _ _ _ Hin) as (i & E & _).
  injection E as E. lia.
Qed.

Lemma Inv_prefix (f : text -> text) (chunks : list text) (s : state) :
  Inv f chunks s ->
  exists done rest, chunks = done ++ rest /\ Forall2 (agrees f) (futures s) done.
Proof.
  intros (_ & _ & _ & Hpc).
  destruct (at_ s) as [t|todo| |i|i| |c]; try contradiction.
  - destruct Hpc as (done & H1 & H2 & _). now exists done, (submitted todo).
  - destruct Hpc as ((H & _) & _). exists chunks, []. now rewrite app_nil_r.
  - destruct Hpc as ((H & _) & _). exists chunks, []. now rewrite app_nil_r.
  - destruct Hpc as ((H & _) & _). exists chunks, []. now rewrite app_nil_r.
  - destruct Hpc as ((H & _) & _). exists chunks, []. now rewrite app_nil_r.
Qed.

Lemma applied_of_run (d : driver) (f : text -> text) (acts : list action) (s : state) :
  steps d f (start (Threaded acts)) s ->
  Permutation (applied (trace s)) (readyFrom 0 (futures s) (submitted acts)).
Proof.
  intros Hsteps. remember (start (Threaded acts)) as s0 eqn:E.
  induction Hsteps as [s|s1 s2 s3 H12 IH Hstep].
  - subst. simpl. apply Permutation_refl.
  - specialize (IH E). subst s1.
    pose proof (steps_keep_Inv d f _ _ _ (Inv_start f acts) H12) as HI.
    destruct (Inv_prefix f _ _ HI) as (done & rest & Hchunks & Hagree).
    pose proof HI as (_ & _ & _ & Hpc).
    destruct Hstep; cbn [trace futures at_] in *;
      rewrite ?applied_app; cbn [applied flat_map app]; rewrite ?app_nil_r;
      try assumption; try contradiction.
    + rewrite Hchunks in *.
      eapply perm_trans; [apply Permutation_sym, Permutation_cons_append|].
      eapply perm_trans; [apply perm_skip, IH|].
      apply (readyFrom_update f rest (f input) fs done Hagree 0%nat i input H).
    + now rewrite readyFrom_snoc_running.
Qed.

Lemma appliers_applied (tr : list event) : appliers tr = map fst (applied tr).
Proof.
  induction tr as [|e tr IH]; [reflexivity|].
  destruct e; simpl; try assumption. now rewrite IH.
Qed.

(** X4. In every run that works through futures, whatever the order in
    which the threads end, no thread calls [applyCipher] twice, every
    call is the call of worker [i] on chunk [i] of the submission
    order, and once the output text is assembled the calls made are
    exactly these, one for every chunk: none is skipped, and none is
    made on the main thread. *)
Theorem each_chunk_applied_once (d : driver) (f : text -> text)
    (acts : list action) (s : state) :
  steps d f (start (Threaded acts)) s ->
  NoDup (appliers (trace s))
  /\ (forall t input, In (t, input) (applied (trace s)) ->
        exists i, t = Worker i /\ nth_error (submitted acts) i = Some input)
  /\ (at_ s = Writing \/ (exists c, at_ s = Returned c) ->
      Permutation (applied (trace s)) (ownWorkers 0 (submitted acts))).
Proof.
  intros Hsteps.
  pose proof (applied_of_run d f acts s Hsteps) as Hperm.
  split; [|split].
  - rewrite appliers_applied.
    eapply Permutation_NoDup;
      [apply Permutation_sym, Permutation_map, Hperm | apply NoDup_readyFrom].
  - intros t input Hin.
    apply (Permutation_in _ Hperm) in Hin.
    destruct (In_readyFrom _ _ _ _ _ Hin) as (i & -> & Hi). now exists i.
  - intros Hend.
    pose proof (steps_keep_Inv d f _ _ _ (Inv_start f acts) Hsteps) as (_ & _ & _ & Hpc).
    assert (Forall2 (agrees f) (futures s) (submitted acts)
            /\ forallb isReady (futures s) = true) as [Hagree Hready].
    { destruct Hend as [E | (c & E)]; rewrite E in Hpc;
        destruct Hpc as ((H1 & _ & H3 & _) & _);
        (split; [exact H1|]);
        now rewrite <- (Forall2_length H1), firstn_all in H3. }
    now rewrite <- (readyFrom_all f _ _ Hagree Hready 0%nat).
Qed.

Lemma each_chunk_applied_once_witness :
  steps Newer sampleCipher (start (Threaded sampleActs)) sampleEnd
  /\ NoDup (appliers (trace sampleEnd))
  /\ (at_ sampleEnd = Writing \/ (exists c, at_ sampleEnd = Returned c))
  /\ Permutation (applied (trace sampleEnd)) (ownWorkers 0 (submitted sampleActs)).
Proof.
  pose proof (each_chunk_applied_once Newer sampleCipher sampleActs sampleEnd sample_run)
    as (H1 & _ & H3).
  assert (at_ sampleEnd = Writing \/ (exists c, at_ sampleEnd = Returned c)) as Hend
    by (right; exists 0; reflexivity).
  split; [exact sample_run|]. split; [exact H1|]. split; [exact Hend|].
  exact (H3 Hend).
Defined.

(** ** The Vigenere loop, action by action *)

Lemma vigenereLoop_exact (inputText : text) (chunkLength : Z) :
  0 < chunkLength -> len inputText + chunkLength < SizeT.modulus ->
  forall (n tc : nat) (futs : list action),
    (tc <= Z.to_nat (len inputText / chunkLength) + 1)%nat ->
    Z.of_nat tc + Z.of_nat n < SizeT.modulus ->
    vigenereLoop n inputText chunkLength (Z.of_nat tc) futs
    = Done (futs
            ++ vigenereRounds inputText (Z.to_nat chunkLength) tc
                 (Nat.min n (Z.to_nat (len inputText / chunkLength) + 1 - tc))
            ++ (if (Z.to_nat (len inputText / chunkLength) + 1 - tc <? n)%nat
                then [Cout (CoutNum (Z.of_nat (Z.to_nat (len inputText / chunkLength) + 1)))]
                else [])).
Proof.
  intros Hcl Hlen.
  pose proof (len_nonneg inputText) as H0.
  assert (0 <= len inputText / chunkLength) as Hq by (apply Z.div_pos; lia).
  pose proof (Z.mul_div_le (len inputText) chunkLength Hcl) as Hlow.
  pose proof (Z.mul_succ_div_gt (len inputText) chunkLength Hcl) as Hhigh.
  set (m := Z.to_nat (len inputText / chunkLength)) in *.
  assert (Z.of_nat m = len inputText / chunkLength) as Hm by (unfold m; lia).
  induction n as [|n IH]; intros tc futs Htc Hcount.
  - simpl. now rewrite app_nil_r.
  - cbn [vigenereLoop]. cbv zeta. unfold SizeT.mul, SizeT.add.
    destruct (Nat.eq_dec tc (m + 1)) as [-> | Hne].
    + rewrite (wrap_small (Z.of_nat (m + 1) * chunkLength)) by nia.
      rewrite substr_outside by nia.
      replace (m + 1 - (m + 1))%nat with 0%nat by lia.
      rewrite Nat.min_0_r. cbn [vigenereRounds app].
      replace (0 <? S n)%nat with true by (symmetry; apply Nat.ltb_lt; lia).
      reflexivity.
    + rewrite (wrap_small (Z.of_nat tc * chunkLength)) by nia.
      rewrite substr_inside by nia.
      rewrite (wrap_small (Z.of_nat tc + 1)) by lia.
      replace (Z.of_nat tc + 1) with (Z.of_nat (S tc)) by lia.
      rewrite IH by lia.
      replace (m + 1 - tc)%nat with (S (m + 1 - S tc)) by lia.
      cbn [Nat.min vigenereRounds].
      replace (Z.to_nat (Z.of_nat tc * chunkLength))
        with (tc * Z.to_nat chunkLength)%nat by nia.
      change (S (m + 1 - S tc) <? S n)%nat with (m + 1 - S tc <? n)%nat.
      rewrite <- !app_assoc. reflexivity.
Qed.

Lemma submitted_rounds (inputText : text) (cl : nat) :
  forall count from,
    submitted (vigenereRounds inputText cl from count)
    = map (fun i => firstn cl (skipn (i * cl) inputText)) (seq from count).
Proof.
  induction count as [|count IH]; intros from; simpl; [reflexivity|].
  now rewrite IH.
Qed.

(** X5. In the Vigenere branch of the newer driver, with a key that is
    not empty: the loop submits exactly [length / chunkLength + 1]
    chunks, at most twelve, where the chunk length is a positive
    multiple of the key length; before each chunk it prints the index
    and the plaintext of the chunk on std::cout, and when fewer than
    twelve chunks were cut it prints one more index before the handler
    of std::out_of_range ends the loop. Every chunk but the last has the
    chunk length, the last has [length mod chunkLength] characters: an
    empty chunk is submitted when the chunk length divides the length
    of the text. *)
Theorem vigenere_chunks_exact (cipherKey inputText : text) :
  cipherKey <> [] ->
  len inputText + (len inputText + len cipherKey) < SizeT.modulus ->
  let chunkLength :=
    Z.to_nat ((len inputText / len cipherKey / threadNum + 1) * len cipherKey) in
  let full := (List.length inputText / chunkLength)%nat in
  let chunk := fun i => firstn chunkLength (skipn (i * chunkLength) inputText) in
  vigenereChunks threadNum cipherKey inputText
  = Done (vigenereRounds inputText chunkLength 0 (S full)
          ++ (if (S full <? 12)%nat then [Cout (CoutNum (Z.of_nat (S full)))] else []))
  /\ (S full <= 12)%nat
  /\ (0 < chunkLength)%nat
  /\ (chunkLength mod List.length cipherKey = 0)%nat
  /\ submitted (vigenereRounds inputText chunkLength 0 (S full)) = map chunk (seq 0 (S full))
  /\ (forall i, (i < full)%nat -> List.length (chunk i) = chunkLength)
  /\ List.length (chunk full) = (List.length inputText mod chunkLength)%nat.
Proof.
  intros Hkey Hlen chunkLength full chunk.
  assert (1 <= len cipherKey) as Hk
    by (destruct cipherKey; [congruence | unfold len; simpl; lia]).
  pose proof (len_nonneg inputText) as H0.
  destruct (vigenere_chunkLength threadNum (len cipherKey) (len inputText))
    as [Hb Hcover]; try (unfold threadNum; lia).
  set (cl := (len inputText / len cipherKey / threadNum + 1) * len cipherKey) in *.
  assert (0 <= len inputText / len cipherKey / threadNum) as Hq
    by (apply Z.div_pos; [apply Z.div_pos|unfold threadNum]; lia).
  assert (Z.of_nat chunkLength = cl) as Hcl by (unfold chunkLength; lia).
  assert (0 < chunkLength)%nat as Hpos by lia.
  assert (Z.to_nat (len inputText / cl) = full) as Hfull.
  { unfold full, len. rewrite <- Hcl, <- Nat2Z.inj_div. apply Nat2Z.id. }
  assert (S full <= 12)%nat as Hcount.
  { assert (len inputText / cl < threadNum) as Hlt
      by (apply Z.div_lt_upper_bound; lia).
    unfold threadNum in Hlt. lia. }
  pose proof (Nat.div_mod_eq (List.length inputText) chunkLength) as Hdm.
  fold full in Hdm.
  pose proof (Nat.mod_upper_bound (List.length inputText) chunkLength ltac:(lia)) as Hmod.
  split.
  { unfold vigenereChunks, SizeT.div.
    destruct (len cipherKey =? 0) eqn:E; [apply Z.eqb_eq in E; lia|].
    change (threadNum =? 0) with false. cbv iota.
    unfold SizeT.mul, SizeT.add.
    rewrite (wrap_small (len inputText / len cipherKey / threadNum + 1))
      by (unfold SizeT.modulus in *; nia).
    fold cl. rewrite (wrap_small cl) by lia.
    pose proof (vigenereLoop_exact inputText cl ltac:(lia) ltac:(lia)
                  (Z.to_nat threadNum) 0%nat []) as Hloop.
    change (Z.of_nat 0) with 0 in Hloop.
    rewrite Hloop by (rewrite ?Hfull; unfold threadNum, SizeT.modulus; simpl; lia).
    rewrite Hfull. change (Z.to_nat threadNum) with 12%nat.
    replace (full + 1 - 0)%nat with (S full) by lia.
    replace (full + 1)%nat with (S full) by lia.
    rewrite Nat.min_r by lia.
    replace (Z.to_nat cl) with chunkLength by lia.
    reflexivity. }
  split; [exact Hcount|]. split; [exact Hpos|]. split.
  { unfold chunkLength, cl, len.
    rewrite Z2Nat.inj_mul by (unfold len in *; lia). rewrite Nat2Z.id.
    apply Nat.Div0.mod_mul. }
  split; [apply submitted_rounds|]. split.
  - intros i Hi. unfold chunk. apply firstn_skipn_length. nia.
  - unfold chunk. rewrite length_firstn, length_skipn. nia.
Qed.

Lemma vigenere_chunks_exact_witness :
  lit "ab" <> []
  /\ len (lit "ATDAWN") + (len (lit "ATDAWN") + len (lit "ab")) < SizeT.modulus
  /\ vigenereChunks threadNum (lit "ab") (lit "ATDAWN")
     = Done (vigenereRounds (lit "ATDAWN") 2 0 4 ++ [Cout (CoutNum 4)])
  /\ submitted (vigenereRounds (lit "ATDAWN") 2 0 4)
     = [lit "AT"; lit "DA"; lit "WN"; []].
Proof.
  split; [discriminate|]. split; [vm_compute; reflexivity|].
  pose proof (vigenere_chunks_exact (lit "ab") (lit "ATDAWN")
                ltac:(discriminate) ltac:(vm_compute; reflexivity))
    as (H1 & _ & _ & _ & H5 & _).
  split; [exact H1 | exact H5].
Defined.

(** The Playfair branch of the newer driver on the key hello and the
    plaintext of the unit test. *)
Lemma newer_playfair_whole_text_witness :
  cipherType (settingsFor Playfair "hello" Encrypt) = Playfair
  /\ dispatch Newer threadNum (settingsFor Playfair "hello" Encrypt)
       (lit "BOBISSOMESORTOFJUNIORCOMPLEXXENOPHONEONEZEROTHING")
     = Done (Synchronous (lit "BOBISSOMESORTOFJUNIORCOMPLEXXENOPHONEONEZEROTHING")).
Proof.
  split; [reflexivity|].
  exact (proj1 (newer_playfair_whole_text threadNum
                  (settingsFor Playfair "hello" Encrypt)
                  (PlayfairCipher helloSquare)
                  (lit "BOBISSOMESORTOFJUNIORCOMPLEXXENOPHONEONEZEROTHING")
                  eq_refl)).
Defined.
